(** * Message reconciliation and derived state of the chat client

    A shallow embedding of
      client/src/components/chat/ChatContainer.tsx
      client/src/components/settings/ProfileImageUpload.tsx

    Conventions of the embedding.
    - A JS [number] that holds an id, a room, a size or a pixel offset is a [Z].
    - A [timestamp] is the value of [new Date(ts).getTime()], milliseconds
      since the epoch, as a [Z]; a missing (falsy) timestamp is [None].
      Unparsable date strings (whose time value is NaN) are outside the model.
    - The insertion-ordered JS [Map] used by the merge is an association list
      in insertion order; [Set<number>] is a [gset Z]; the translation cache
      [Map<number, string>] is used with [has], [get] and [set] only and its
      order is never observed, so it is a [gmap Z string].
    - A JS string that the code compares, stores or hands on is a Rocq
      [string]; the text of the message box, whose characters [trim]
      inspects, is the list of its UTF-16 code units. The built-in [RegExp]
      is a parameter: what a pattern compiles to is not fixed here.
    - [Array.prototype.sort] is a stable sort; it is embedded as a stable
      insertion sort driven by the numeric comparator.
    - React state is threaded explicitly: an effect or event handler is a
      function from the component state to the next state (and, where it has
      side effects, a trace of them). *)

From Stdlib Require Import ZArith Ascii String List Lia Bool.
From stdpp Require Import base decidable option list strings gmap sets sorting.
Import ListNotations.

Local Open Scope string_scope.
Local Open Scope list_scope.
Local Open Scope Z_scope.

(** ** Data model *)

(** The fields of [Message] (from the shared schema) that the component reads.
    [msg_id] is [None] when the field is missing. *)
Record Message := mkMessage {
  msg_id : option Z;
  msg_roomId : Z;
  msg_senderId : string;
  msg_senderName : string;
  msg_originalText : option string;
  msg_timestamp : option Z
}.

#[global] Instance Message_eq_dec : EqDecision Message.
Proof. solve_decision. Defined.

(** The authenticated user, as far as the component looks at it. *)
Record User := mkUser {
  user_id : string;
  user_firstName : string;
  user_lastName : string;
  user_email : string
}.

(** ** The insertion-ordered map of the merge *)

Module JsMap.

(** [Map.prototype.set]: an existing key keeps its position and gets the
    new value, a new key is appended. *)
Fixpoint set (k : Z) (v : Message) (m : list (Z * Message)) : list (Z * Message) :=
  match m with
  | [] => [(k, v)]
  | (k', v') :: rest =>
      if Z.eqb k k' then (k, v) :: rest else (k', v') :: set k v rest
  end.

Fixpoint get (k : Z) (m : list (Z * Message)) : option Message :=
  match m with
  | [] => None
  | (k', v') :: rest => if Z.eqb k k' then Some v' else get k rest
  end.

(** [Array.from(map.values())] *)
Definition values (m : list (Z * Message)) : list Message := map snd m.

Definition keys (m : list (Z * Message)) : list Z := map fst m.

End JsMap.

(** ** Sorting with a numeric comparator *)

Section SortBy.
Context {A : Type}.
Variable cmp : A -> A -> Z.

(** Insert [x] after every element that does not compare greater than it:
    equal elements keep their input order. *)
Fixpoint insert_sorted (x : A) (l : list A) : list A :=
  match l with
  | [] => [x]
  | y :: l' => if 0 <? cmp y x then x :: y :: l' else y :: insert_sorted x l'
  end.

(** [arr.sort(cmp)] *)
Definition sortBy (l : list A) : list A :=
  fold_left (fun acc x => insert_sorted x acc) l [].

End SortBy.

(** ** The merge effect (ChatContainer.tsx, lines 274-361) *)

(** [new Date(m.timestamp || 0).getTime()] *)
Definition timeOf (m : Message) : Z :=
  match msg_timestamp m with
  | Some t => t
  | None => 0
  end.

(** The comparator of the merge sort (line 298). *)
Definition mergeCmp (a b : Message) : Z := timeOf a - timeOf b.

(** One iteration of either [forEach] (lines 283-287 and 290-294):
    [if (msg.id && !deletedMessageIds.has(msg.id)) messageMap.set(msg.id, msg)].
    The number 0 is falsy, as is a missing id. *)
Definition addMessage (deletedMessageIds : gset Z)
    (messageMap : list (Z * Message)) (msg : Message) : list (Z * Message) :=
  match msg_id msg with
  | Some i =>
      if negb (Z.eqb i 0) && negb (bool_decide (i ∈ deletedMessageIds))
      then JsMap.set i msg messageMap
      else messageMap
  | None => messageMap
  end.

Definition addMessages (deletedMessageIds : gset Z)
    (msgs : list Message) (messageMap : list (Z * Message)) : list (Z * Message) :=
  fold_left (addMessage deletedMessageIds) msgs messageMap.

(** [initialMessages && Array.isArray(initialMessages) ? initialMessages : []];
    [None] stands for a query result that is absent or not an array. *)
Definition dbMessagesOf (initialMessages : option (list Message)) : list Message :=
  match initialMessages with
  | Some l => l
  | None => []
  end.

(** [allMessages.filter(msg => msg.roomId === roomId)] *)
Definition wsMessagesOf (roomId : Z) (allMessages : list Message) : list Message :=
  filter (fun msg => msg_roomId msg = roomId) allMessages.

(** The map after both passes (lines 280-294). *)
Definition messageMapOf (dbMessages wsMessages : list Message)
    (deletedMessageIds : gset Z) : list (Z * Message) :=
  addMessages deletedMessageIds wsMessages
    (addMessages deletedMessageIds dbMessages []).

(** [reconcile(H, L, T)]: lines 280-298 for given historical and live lists. *)
Definition reconcile (dbMessages wsMessages : list Message)
    (deletedMessageIds : gset Z) : list Message :=
  sortBy mergeCmp (JsMap.values (messageMapOf dbMessages wsMessages deletedMessageIds)).

(** [mergedMessages] as the effect computes it from the hook values. *)
Definition mergedMessages (initialMessages : option (list Message))
    (allMessages : list Message) (roomId : Z) (deletedMessageIds : gset Z)
    : list Message :=
  reconcile (dbMessagesOf initialMessages) (wsMessagesOf roomId allMessages)
    deletedMessageIds.

(** The ids of a view, as [roomMessages.map(msg => msg.id)] collects them. *)
Definition viewIds (msgs : list Message) : list Z := omap msg_id msgs.

(** ** Mention detection (lines 224-238 and 303-358) *)

Module Regex.

(** The reference reading of the mention pattern for a display name that
    is plain: ASCII characters, none of them pattern syntax. Such a pattern
    is the literal text [@name] and a word boundary; its letters match only
    ASCII letters, and the word characters are ASCII, so every other
    character of a text counts as a non-word character without case. *)
Definition isWordChar (c : ascii) : bool :=
  let n := N_of_ascii c in
  ((48 <=? n) && (n <=? 57) || (65 <=? n) && (n <=? 90) ||
   (n =? 95) || (97 <=? n) && (n <=? 122))%N.

(** Canonicalisation of an ASCII character under the [i] flag. *)
Definition canonicalize (c : ascii) : ascii :=
  let n := N_of_ascii c in
  if ((97 <=? n) && (n <=? 122))%N then ascii_of_N (n - 32) else c.

Definition eqb_ci (a b : ascii) : bool :=
  Ascii.eqb (canonicalize a) (canonicalize b).

(** The characters that are syntax in a pattern; a name without them is
    matched literally when it is spliced into a pattern. *)
Definition isSyntaxChar (c : ascii) : bool :=
  existsb (Ascii.eqb c)
    (list_ascii_of_string "\^$.|?*+()[]{}").

Fixpoint isLiteral (s : string) : bool :=
  match s with
  | EmptyString => true
  | String c s' => negb (isSyntaxChar c) && isLiteral s'
  end.

(** Two strings are equal up to the case of ASCII letters. *)
Fixpoint eqb_ci_string (s1 s2 : string) : bool :=
  match s1, s2 with
  | EmptyString, EmptyString => true
  | String a s1', String b s2' => eqb_ci a b && eqb_ci_string s1' s2'
  | _, _ => false
  end.

(** Match the literal [pat] followed by [\b] at the head of [text];
    [prev] is the character just before the current position. *)
Fixpoint matchLiteralThenBoundary (prev : ascii) (pat text : string) : bool :=
  match pat with
  | EmptyString =>
      xorb (isWordChar prev)
           (match text with
            | EmptyString => false
            | String c _ => isWordChar c
            end)
  | String p pat' =>
      match text with
      | EmptyString => false
      | String c text' => eqb_ci p c && matchLiteralThenBoundary c pat' text'
      end
  end.

(** What [new RegExp(`@${name}\\b`, 'i').test(text)] yields for a plain
    [name]: the literal is tried at every start position. *)
Fixpoint testMention (name text : string) : bool :=
  matchLiteralThenBoundary "@"%char (String "@"%char name) text ||
  match text with
  | EmptyString => false
  | String _ text' => testMention name text'
  end.

Definition isAscii (s : string) : bool :=
  forallb (fun c => (N_of_ascii c <? 128)%N) (list_ascii_of_string s).

(** The source text of the pattern, [`@${name}\\b`]. *)
Definition mentionSource (name : string) : string :=
  String "@"%char (String.append name "\b").

Fixpoint dropLast2 (s : string) : string :=
  match s with
  | EmptyString => EmptyString
  | String c s' =>
      match s' with
      | String _ EmptyString => EmptyString
      | _ => String c (dropLast2 s')
      end
  end.

(** One possible [RegExp]: it compiles the source of a plain name to its
    reference reading and rejects every other source. The examples below
    are evaluated with it. *)
Definition literalRegExp (source : string) : option (string -> bool) :=
  match dropLast2 source with
  | String "@"%char name =>
      if isLiteral name && isAscii name then Some (testMention name) else None
  | _ => None
  end.

End Regex.

(** How far the mention loop of lines 312-347 got: it ran to its end, or a
    call of [isUserMentioned] threw; either way with the ids whose
    notification had fired. *)
Inductive LoopResult :=
| Completed (newMentions : list Z)
| Threw (firedBefore : list Z).

Section Mentions.

(** [getDisplayName] lives in lib/profileUtils, outside these sources;
    it is a parameter of the development. *)
Variable getDisplayName : User -> string.

(** [new RegExp(source, 'i')], a built-in: [None] when the constructor
    throws a [SyntaxError], otherwise the [test] method of the pattern. *)
Variable newRegExp : string -> option (string -> bool).

(** [isUserMentioned] (lines 224-238). The empty string is falsy; the result
    is [None] when the construction of the pattern throws. *)
Definition isUserMentioned (user : option User) (message : Message) : option bool :=
  match user, msg_originalText message with
  | Some u, Some text =>
      if String.eqb text "" then Some false
      else
        match newRegExp (Regex.mentionSource (getDisplayName u)) with
        | Some mentionPattern => Some (mentionPattern text)
        | None => None
        end
  | _, _ => Some false
  end.

(** [message.senderId !== user?.id] *)
Definition isNotFromSelf (user : option User) (message : Message) : bool :=
  match user with
  | Some u => negb (String.eqb (msg_senderId message) (user_id u))
  | None => true
  end.

(** [message.id && !previousMessageIds.has(message.id)] *)
Definition isNewMessage (previousMessageIds : gset Z) (message : Message) : bool :=
  match msg_id message with
  | Some i => negb (Z.eqb i 0) && negb (bool_decide (i ∈ previousMessageIds))
  | None => false
  end.

(** The guard of line 328 for a message whose mention test gave
    [isMentioned]. *)
Definition triggersMention (previousMessageIds : gset Z) (user : option User)
    (message : Message) (isMentioned : bool) : bool :=
  isNewMessage previousMessageIds message && isNotFromSelf user message
    && isMentioned.

(** The loop of lines 312-347. Every iteration calls [isUserMentioned]
    (line 315), so a pattern that does not compile ends the loop at the
    first message with a text. The ids are those added to [newMentions], in
    the order in which their notification (sound and, when permitted,
    system notification) fires. *)
Fixpoint detectNewMentions (previousMessageIds : gset Z) (user : option User)
    (messages : list Message) : LoopResult :=
  match messages with
  | [] => Completed []
  | message :: rest =>
      match isUserMentioned user message with
      | None => Threw []
      | Some isMentioned =>
          let add := fun l : list Z =>
            match msg_id message with
            | Some i =>
                if triggersMention previousMessageIds user message isMentioned
                then i :: l else l
            | None => l
            end in
          match detectNewMentions previousMessageIds user rest with
          | Completed l => Completed (add l)
          | Threw l => Threw (add l)
          end
      end
  end.

(** The updater of lines 350-358; [isUserMentioned] is called only for a
    message with a truthy id. [None] when a call throws. *)
Fixpoint updateMentioned (user : option User) (messages : list Message)
    (updated : gset Z) : option (gset Z) :=
  match messages with
  | [] => Some updated
  | message :: rest =>
      match msg_id message with
      | Some i =>
          if negb (Z.eqb i 0) then
            match isUserMentioned user message with
            | Some true => updateMentioned user rest ({[i]} ∪ updated)
            | Some false => updateMentioned user rest updated
            | None => None
            end
          else updateMentioned user rest updated
      | None => updateMentioned user rest updated
      end
  end.

End Mentions.

(** ** Component state *)

(** The [useState] cells of [ChatContainer] that the modelled code touches. *)
Record ChatState := mkChatState {
  roomMessages : list Message;
  translatedMessages : gmap Z string;
  mentionedMessageIds : gset Z;
  showScrollToBottom : bool;
  isUserScrolling : bool;
  currentLanguage : string
}.

(** The state on mount (lines 133-145); the language comes from local storage. *)
Definition initialState (storedLanguage : string) : ChatState :=
  mkChatState [] ∅ ∅ false false storedLanguage.

(** The values the merge effect depends on (line 361). *)
Record MergeInputs := mkMergeInputs {
  initialMessages : option (list Message);
  allMessages : list Message;
  roomId : Z;
  deletedMessageIds : gset Z;
  user : option User
}.

Definition mergedOf (inp : MergeInputs) : list Message :=
  mergedMessages (initialMessages inp) (allMessages inp) (roomId inp)
    (deletedMessageIds inp).

(** What one run of the merge effect comes to: it stored the next state, or
    it threw before any state setter ran; either way with the ids whose
    mention notification fired. *)
Inductive EffectOutcome :=
| Stored (next : ChatState) (fired : list Z)
| Crashed (fired : list Z).

(** The view a run stored, if it stored one. *)
Definition storedView (o : EffectOutcome) : option (list Message) :=
  match o with
  | Stored next _ => Some (roomMessages next)
  | Crashed _ => None
  end.

Section MergeEffect.

Variable getDisplayName : User -> string.
Variable newRegExp : string -> option (string -> bool).

(** One run of the merge effect (lines 275-361). *)
Definition mergeOutcome (inp : MergeInputs) (s : ChatState) : EffectOutcome :=
  let merged := mergedOf inp in
  let previousMessageIds : gset Z := list_to_set (viewIds (roomMessages s)) in
  match detectNewMentions getDisplayName newRegExp previousMessageIds (user inp) merged with
  | Threw firedBefore => Crashed firedBefore
  | Completed newMentions =>
      match updateMentioned getDisplayName newRegExp (user inp) merged
              (mentionedMessageIds s) with
      | Some updated =>
          Stored
            (mkChatState merged (translatedMessages s) updated
               (showScrollToBottom s) (isUserScrolling s) (currentLanguage s))
            newMentions
      | None => Crashed newMentions
      end
  end.

(** The state after the run and the ids whose mention notification fired
    during it; a run that threw has set no state. *)
Definition mergeEffect (inp : MergeInputs) (s : ChatState) : ChatState * list Z :=
  match mergeOutcome inp s with
  | Stored next fired => (next, fired)
  | Crashed fired => (s, fired)
  end.

(** A session: the effect runs once per change of its inputs; the result is
    the notifications of each run. An uncaught error in an effect unmounts
    the component, which ends the session. *)
Fixpoint runPasses (inps : list MergeInputs) (s : ChatState) : list (list Z) :=
  match inps with
  | [] => []
  | inp :: rest =>
      match mergeOutcome inp s with
      | Stored next fired => fired :: runPasses rest next
      | Crashed fired => [fired]
      end
  end.

End MergeEffect.

(** ** The rendered order (lines 663-684) *)

(** [translatedMessages.has(m.id)] *)
Definition hasTranslation (translated : gmap Z string) (m : Message) : bool :=
  match msg_id m with
  | Some i => bool_decide (is_Some (translated !! i))
  | None => false
  end.

(** The comparator of lines 667-684. *)
Definition renderCmp (translated : gmap Z string) (a b : Message) : Z :=
  let timeComparison := timeOf a - timeOf b in
  let timeDiff := Z.abs (timeOf a - timeOf b) in
  if timeDiff <? 1000 then
    let aHasTranslation := hasTranslation translated a in
    let bHasTranslation := hasTranslation translated b in
    if aHasTranslation && negb bHasTranslation then 1
    else if negb aHasTranslation && bHasTranslation then -1
    else timeComparison
  else timeComparison.

(** [self.findIndex(m => m.id === message.id)], on the elements from
    position [i] on. *)
Fixpoint findIndexFrom (i : nat) (mid : option Z) (self : list Message) : option nat :=
  match self with
  | [] => None
  | m :: rest =>
      if bool_decide (msg_id m = mid) then Some i
      else findIndexFrom (Datatypes.S i) mid rest
  end.

(** The filter of lines 664-666: keep the first message of every id. *)
Fixpoint keepFirstFrom (i : nat) (self rest : list Message) : list Message :=
  match rest with
  | [] => []
  | message :: rest' =>
      if bool_decide (findIndexFrom 0 (msg_id message) self = Some i)
      then message :: keepFirstFrom (Datatypes.S i) self rest'
      else keepFirstFrom (Datatypes.S i) self rest'
  end.

Definition keepFirst (msgs : list Message) : list Message :=
  keepFirstFrom 0 msgs msgs.

(** The sequence handed to [MessageBubble]s. *)
Definition renderedMessages (s : ChatState) : list Message :=
  sortBy (renderCmp (translatedMessages s)) (keepFirst (roomMessages s)).

(** ** Translation cache (lines 402-429 and 615-632) *)

(** What [translationManager.translateMessage] receives; [req_onComplete] is
    the state updater that the callback passes to [setTranslatedMessages]. *)
Record TranslationRequest := mkTranslationRequest {
  req_message : Message;
  req_targetLanguage : string;
  req_priority : string;
  req_onComplete : string -> ChatState -> ChatState
}.

Definition setTranslatedMessages (f : gmap Z string -> gmap Z string)
    (s : ChatState) : ChatState :=
  mkChatState (roomMessages s) (f (translatedMessages s)) (mentionedMessageIds s)
    (showScrollToBottom s) (isUserScrolling s) (currentLanguage s).

(** [roomMessages.find(m => m.id === messageId)] *)
Definition findMessage (messageId : Z) (msgs : list Message) : option Message :=
  List.find (fun m => bool_decide (msg_id m = Some messageId)) msgs.

(** [handleManualTranslation] (lines 411-429): nothing when the message is not
    in the view, otherwise the request handed to the translation manager. *)
Definition handleManualTranslation (messageId : Z) (text sourceLanguage targetLanguage : string)
    (s : ChatState) : option TranslationRequest :=
  match findMessage messageId (roomMessages s) with
  | None => None
  | Some message =>
      Some (mkTranslationRequest message targetLanguage "high"
              (fun translatedResult =>
                 setTranslatedMessages (fun prev => <[messageId := translatedResult]> prev)))
  end.

(** The language selector (lines 617-632) followed by the effect on
    [currentLanguage] (lines 402-406): both reset the cache. *)
Definition changeLanguage (newLang : string) (s : ChatState) : ChatState :=
  mkChatState (roomMessages s) ∅ (mentionedMessageIds s)
    (showScrollToBottom s) (isUserScrolling s) newLang.

(** [translatedMessages.get(id)] *)
Definition cacheGet (messageId : Z) (s : ChatState) : option string :=
  translatedMessages s !! messageId.

(** ** Viewport (lines 364-399 and 431-444) *)

(** [scrollToBottom] (lines 364-367); the scrolling itself is a DOM effect. *)
Definition scrollToBottom (s : ChatState) : ChatState :=
  mkChatState (roomMessages s) (translatedMessages s) (mentionedMessageIds s)
    false (isUserScrolling s) (currentLanguage s).

(** Line 372. *)
Definition isNearBottom (scrollTop clientHeight scrollHeight : Z) : bool :=
  scrollHeight - 100 <=? scrollTop + clientHeight.

(** [handleScroll] (lines 370-387); it also restarts the two-second timer. *)
Definition handleScroll (scrollTop clientHeight scrollHeight : Z) (s : ChatState)
    : ChatState :=
  mkChatState (roomMessages s) (translatedMessages s) (mentionedMessageIds s)
    (negb (isNearBottom scrollTop clientHeight scrollHeight)
       && (0 <? Z.of_nat (length (roomMessages s))))
    true (currentLanguage s).

(** The timer of lines 384-386 fires. *)
Definition userScrollTimeout (s : ChatState) : ChatState :=
  mkChatState (roomMessages s) (translatedMessages s) (mentionedMessageIds s)
    (showScrollToBottom s) false (currentLanguage s).

(** The guard of the autoscroll effect (line 395): [true] when the effect
    schedules [scrollToBottom]. *)
Definition autoScrollFires (s : ChatState) : bool :=
  negb (isUserScrolling s) && negb (showScrollToBottom s)
    && (0 <? Z.of_nat (length (roomMessages s))).

(** The jump-to-latest button is rendered (line 737). *)
Definition jumpToLatestShown (s : ChatState) : bool := showScrollToBottom s.

Module Trim.

(** The code units that [String.prototype.trim] removes: the white space
    and line terminators of ECMAScript (TAB, LF, VT, FF, CR, SP, NBSP,
    U+1680, U+2000 to U+200A, U+2028, U+2029, U+202F, U+205F, U+3000 and
    U+FEFF). *)
Definition isWhite (c : N) : bool :=
  ((9 <=? c) && (c <=? 13) || (c =? 32) || (c =? 160) || (c =? 5760) ||
   (8192 <=? c) && (c <=? 8202) || (c =? 8232) || (c =? 8233) ||
   (c =? 8239) || (c =? 8287) || (c =? 12288) || (c =? 65279))%N.

Fixpoint trimStart (s : list N) : list N :=
  match s with
  | [] => []
  | c :: s' => if isWhite c then trimStart s' else s
  end.

Fixpoint trimEnd (s : list N) : list N :=
  match s with
  | [] => []
  | c :: s' =>
      match trimEnd s' with
      | [] => if isWhite c then [] else [c]
      | t => c :: t
      end
  end.

Definition trim (s : list N) : list N := trimEnd (trimStart s).

End Trim.

(** The side effects of [handleSendMessage]. *)
Inductive SendAction :=
| SendMessage (text : list N) (roomId : Z) (replyingTo : option Message)
    (mentions : option (list string))
| ClearReply
| ScheduleScrollToBottom.

(** [handleSendMessage] (lines 431-444); [text] is the text of the message
    box as its UTF-16 code units. *)
Definition handleSendMessage (text : list N) (mentions : option (list string))
    (roomId : Z) (replyingTo : option Message) : list SendAction :=
  match Trim.trim text with
  | [] => []
  | trimmed =>
      [SendMessage trimmed roomId replyingTo mentions;
       ClearReply; ScheduleScrollToBottom]
  end.

(** ** Profile image upload (ProfileImageUpload.tsx, lines 37-55 and 83-164) *)

Module ProfileImageUpload.

(** The two properties of a selected [File] that the handler inspects. *)
Record File := mkFile {
  file_type : string;
  file_size : Z
}.

Inductive UploadAction :=
| Toast (title description : string)
| SetIsUploading (b : bool)
| ReadAsDataURL (file : File)
| SetImgSrc (dataUrl : string)
| Mutate (imageUrl : string) (useCustom : bool).

(** How the browser answers once the handler has started the pipeline:
    whether the reader delivers a data URL, and whether the image decodes
    (then [canvas.toDataURL] yields the compressed URL) or fails. *)
Inductive DecodeOutcome :=
| DecodeOk (compressedDataUrl : string)
| DecodeError
| DecodePending.

(** [img.onload] (lines 114-140); the canvas arithmetic only determines
    the pixels behind [compressedDataUrl]. *)
Definition imgOnload (compressedDataUrl : string) : list UploadAction :=
  [Mutate compressedDataUrl true; SetIsUploading false].

(** [img.onerror] (lines 142-149). *)
Definition imgOnerror : list UploadAction :=
  [Toast "Error" "Failed to process the image file."; SetIsUploading false].

(** The synchronous part of [handleFileUpload] (lines 83-107 and 151-155):
    the actions, and whether the read of the file was started. *)
Definition handleFileUpload (files : list File) : list UploadAction * option File :=
  match files with
  | [] => ([], None)
  | file :: _ =>
      if negb (String.prefix "image/" (file_type file)) then
        ([Toast "Invalid file type" "Please select an image file."], None)
      else if 1 * 1024 * 1024 <? file_size file then
        ([Toast "File too large" "Please select an image smaller than 1MB."], None)
      else ([SetIsUploading true; ReadAsDataURL file], Some file)
  end.

(** Everything one selection can cause, callbacks included. *)
Definition uploadTrace (files : list File) (readResult : option string)
    (decode : DecodeOutcome) : list UploadAction :=
  let '(actions, started) := handleFileUpload files in
  match started, readResult with
  | Some _, Some dataUrl =>
      actions ++ [SetImgSrc dataUrl] ++
      match decode with
      | DecodeOk compressed => imgOnload compressed
      | DecodeError => imgOnerror
      | DecodePending => []
      end
  | _, _ => actions
  end.

(** The bodies posted to [/api/user/profile-image] by
    [updateProfileImageMutation.mutate] (lines 37-40). *)
Fixpoint mutations (trace : list UploadAction) : list (string * bool) :=
  match trace with
  | [] => []
  | Mutate imageUrl useCustom :: rest => (imageUrl, useCustom) :: mutations rest
  | _ :: rest => mutations rest
  end.

End ProfileImageUpload.

(** ** The properties as the specification words them *)

Module SpecWords.

(** "its original text contains the current user's display name as a
    whole-word, case-insensitive token": [name] occurs in [text] with a
    word boundary on both sides. *)
Fixpoint matchWord (pat text : string) : bool :=
  match pat with
  | EmptyString =>
      match text with
      | EmptyString => true
      | String c _ => negb (Regex.isWordChar c)
      end
  | String p pat' =>
      match text with
      | EmptyString => false
      | String c text' => Regex.eqb_ci p c && matchWord pat' text'
      end
  end.

(** [prev] is the character before the current position, if any. *)
Fixpoint containsWordFrom (prev : option ascii) (name text : string) : bool :=
  (match prev with
   | Some c => negb (Regex.isWordChar c)
   | None => true
   end && matchWord name text) ||
  match text with
  | EmptyString => false
  | String c text' => containsWordFrom (Some c) name text'
  end.

Definition containsWholeWord (name text : string) : bool :=
  containsWordFrom None name text.

(** "sorted by timestamp ascending" *)
Definition sortedByTimestamp (msgs : list Message) : Prop :=
  StronglySorted (fun a b => timeOf a <= timeOf b) msgs.

(** "for two messages within 1 second of each other, the one with a cached
    translation sorts after the one without": no translated message stands
    before an untranslated one less than a second away. *)
Definition translatedAfter (translated : gmap Z string) (msgs : list Message) : Prop :=
  StronglySorted
    (fun a b =>
       Z.abs (timeOf a - timeOf b) < 1000 ->
       ~ (hasTranslation translated a = true /\ hasTranslation translated b = false))
    msgs.

End SpecWords.

(** ** Auxiliary predicates of the proofs *)

(** The invariant of the merge map for a tombstone set [T]: keys are distinct,
    every value is stored under its own id, and no key is falsy or deleted. *)
Definition mapInv (T : gset Z) (m : list (Z * Message)) : Prop :=
  NoDup (JsMap.keys m) /\
  forall k v, (k, v) ∈ m -> msg_id v = Some k /\ k <> 0 /\ k ∉ T.

(** The last message of a list that carries the id [i]: the one that a
    sequence of [Map.set] calls leaves in the map. *)
Definition lastWithId (i : Z) (msgs : list Message) : option Message :=
  last (filter (fun m => msg_id m = Some i) msgs).

(** The last character of [s], or [d] when [s] is empty. *)
Fixpoint lastChar (d : ascii) (s : string) : ascii :=
  match s with
  | EmptyString => d
  | String c s' => lastChar c s'
  end.

(** The text [post] starts with a word character. *)
Definition startsWithWordChar (post : string) : bool :=
  match post with
  | EmptyString => false
  | String c _ => Regex.isWordChar c
  end.

(** [text] holds an at-mention of [name]: some substring equals ["@" ++ name]
    up to case and ends at a word boundary, that is, exactly one of the
    substring's last character and the character after it is a word
    character. *)
Definition atMentioned (name text : string) : Prop :=
  exists pre mid post : string,
    text = String.append pre (String.append mid post) /\
    Regex.eqb_ci_string (String "@"%char name) mid = true /\
    xorb (Regex.isWordChar (lastChar "@"%char mid)) (startsWithWordChar post) = true.

(** The built-in reads the pattern of every plain display name as its
    reference reading. *)
Definition plainPatternsAsRead (newRegExp : string -> option (string -> bool)) : Prop :=
  forall name,
    Regex.isLiteral name = true -> Regex.isAscii name = true ->
    exists mentionPattern,
      newRegExp (Regex.mentionSource name) = Some mentionPattern /\
      forall text, mentionPattern text = Regex.testMention name text.

(** The pattern built from the display name of the signed-in user, if there
    is one, compiles. *)
Definition mentionPatternCompiles (getDisplayName : User -> string)
    (newRegExp : string -> option (string -> bool)) (user : option User) : Prop :=
  forall u, user = Some u ->
    is_Some (newRegExp (Regex.mentionSource (getDisplayName u))).

(** The order of two neighbours in the rendered sequence, in the words of the
    comparator: less than a second apart and exactly one of them translated,
    the untranslated one is first; otherwise the earlier one is first. *)
Definition renderBefore (translated : gmap Z string) (a b : Message) : Prop :=
  if bool_decide (Z.abs (timeOf a - timeOf b) < 1000) &&
     negb (Bool.eqb (hasTranslation translated a) (hasTranslation translated b))
  then hasTranslation translated a = false /\ hasTranslation translated b = true
  else timeOf a <= timeOf b.

(** ** Further parts of the two components *)

(** The filter of lines 664-666 told forwards: a message is kept when its id
    is not among the ids [seen] before it. *)
Fixpoint keepUnseen (seen : list (option Z)) (rest : list Message) : list Message :=
  match rest with
  | [] => []
  | m :: rest' =>
      if bool_decide (msg_id m ∈ seen) then keepUnseen (seen ++ [msg_id m]) rest'
      else m :: keepUnseen (seen ++ [msg_id m]) rest'
  end.

(** A message that [addMessage] lets into the map. *)
Definition admissible (T : gset Z) (m : Message) : Prop :=
  exists i, msg_id m = Some i /\ i <> 0 /\ i ∉ T.

Module Language.

(** A string read from local storage or from the user object is taken when
    it is present and not empty. *)
Definition truthy (o : option string) : option string :=
  match o with
  | Some s => if String.eqb s "" then None else Some s
  | None => None
  end.

(** The component state together with the [selectedLanguage] item of local
    storage. *)
Record Store := mkStore {
  chat : ChatState;
  selectedLanguage : option string
}.

(** The initial value of [currentLanguage] (lines 140-145):
    [localStorage.getItem('selectedLanguage') || 'ja']. *)
Definition initialLanguage (stored : option string) : string :=
  match truthy stored with
  | Some s => s
  | None => "ja"
  end.

Definition mount (stored : option string) : Store :=
  mkStore (initialState (initialLanguage stored)) stored.

(** [setCurrentLanguage]: setting the state to its present value changes
    nothing; a new value re-renders and runs the effect of lines 402-406,
    which empties the translation cache. *)
Definition setCurrentLanguage (newLang : string) (s : ChatState) : ChatState :=
  if String.eqb newLang (currentLanguage s) then s else changeLanguage newLang s.

(** The effect of lines 187-207; [preferredLanguage] is
    [user?.preferredLanguage], absent when nobody is signed in. *)
Definition initEffect (preferredLanguage : option string) (st : Store) : Store :=
  match truthy preferredLanguage with
  | None => st
  | Some serverLanguage =>
      match truthy (selectedLanguage st) with
      | None =>
          mkStore (setCurrentLanguage serverLanguage (chat st)) (Some serverLanguage)
      | Some savedLanguage =>
          if String.eqb (currentLanguage (chat st)) savedLanguage then st
          else mkStore (setCurrentLanguage savedLanguage (chat st)) (selectedLanguage st)
      end
  end.

(** The [onChange] handler of the language selector (lines 617-632). *)
Definition selectLanguage (newLang : string) (st : Store) : Store :=
  mkStore (changeLanguage newLang (chat st)) (Some newLang).

End Language.

Module ProfileView.

(** The fields of the signed-in user that [ProfileImageUpload] renders
    (lines 27-34). *)
Record ProfileUser := mkProfileUser {
  firstName : option string;
  lastName : option string;
  email : option string;
  useCustomProfileImage : bool;
  customProfileImageUrl : option string;
  profileImageUrl : option string
}.




(** [currentProfileImage] (lines 28-30). *)
Definition currentProfileImage (currentUser : option ProfileUser) : option string :=
  match currentUser with
  | None => None
  | Some u => if useCustomProfileImage u then customProfileImageUrl u
              else profileImageUrl u
  end.

(** The size given to the canvas by [img.onload] (lines 116-132) for an
    image of [width] by [height] pixels. The quotient is a fraction in the
    code; assigning it to [canvas.width] or [canvas.height] keeps its integer
    part, which is what [/] on [Z] yields for the positive sizes of an image. *)
Definition canvasSize (width height : Z) : Z * Z :=
  let maxSize := 400 in
  if height <? width then
    if maxSize <? width then (maxSize, (height * maxSize) / width)
    else (width, height)
  else
    if maxSize <? height then ((width * maxSize) / height, maxSize)
    else (width, height).

(** The value of [isUploading] after the actions of a trace. *)
Definition isUploadingAfter (trace : list ProfileImageUpload.UploadAction)
    (isUploading : bool) : bool :=
  fold_left
    (fun b a => match a with
                | ProfileImageUpload.SetIsUploading b' => b'
                | _ => b
                end) trace isUploading.

(** The file passes both checks of [handleFileUpload]. *)
Definition acceptedFile (file : ProfileImageUpload.File) : bool :=
  String.prefix "image/" (ProfileImageUpload.file_type file) &&
  (ProfileImageUpload.file_size file <=? 1048576).

End ProfileView.

(** The profile fields that ride on a message object next to the fields of
    [Message] above, and the image fields of the user object. *)
Record SenderFields := mkSenderFields {
  senderUseCustomProfileImage : bool;
  senderCustomProfileImageUrl : option string;
  senderProfileImageUrl : option string;
  senderFirstName : option string;
  senderLastName : option string;
  senderEmail : option string
}.

Record UserImageFields := mkUserImageFields {
  userUseCustomProfileImage : bool;
  userCustomProfileImageUrl : option string;
  userProfileImageUrl : option string
}.

(** The object returned by [getParticipantProfile]. *)
Record ParticipantProfile := mkParticipantProfile {
  pp_id : string;
  pp_profileImageUrl : option string;
  pp_firstName : option string;
  pp_lastName : option string;
  pp_email : option string
}.

Section Participants.

(** The readers of those fields; the objects themselves come from the server. *)
Variable senderFields : Message -> SenderFields.
Variable userImageFields : User -> UserImageFields.

(** The profile read off one message of the sender (lines 90-101). *)
Definition profileOfMessage (senderId : string) (message : Message)
    : ParticipantProfile :=
  let f := senderFields message in
  mkParticipantProfile senderId
    (if senderUseCustomProfileImage f then senderCustomProfileImageUrl f
     else senderProfileImageUrl f)
    (senderFirstName f) (senderLastName f) (senderEmail f).

(** [getParticipantProfile] (lines 87-115). *)
Definition getParticipantProfile (senderId : string) (msgs : list Message)
    (user : option User) : option ParticipantProfile :=
  match List.find (fun msg => String.eqb (msg_senderId msg) senderId) msgs with
  | Some senderMessage => Some (profileOfMessage senderId senderMessage)
  | None =>
      match user with
      | Some u =>
          if String.eqb senderId (user_id u) then
            Some (mkParticipantProfile (user_id u)
                    (if userUseCustomProfileImage (userImageFields u)
                     then userCustomProfileImageUrl (userImageFields u)
                     else userProfileImageUrl (userImageFields u))
                    (Some (user_firstName u)) (Some (user_lastName u))
                    (Some (user_email u)))
          else None
      | None => None
      end
  end.

(** [getUserProfileImage] (lines 167-170). *)
Definition getUserProfileImage (userId : string) (msgs : list Message)
    (user : option User) : option string :=
  match getParticipantProfile userId msgs user with
  | Some profile => pp_profileImageUrl profile
  | None => None
  end.

End Participants.

(** * Properties *)

(** ** The sort *)

Section SortFacts.
Context {A : Type}.
Variable cmp : A -> A -> Z.

Lemma insert_sorted_Permutation (x : A) (l : list A) :
  insert_sorted cmp x l ≡ₚ x :: l.
Proof.
  induction l as [|y l IH]; simpl; [done|].
  destruct (0 <? cmp y x); [done|].
  rewrite IH. apply Permutation_swap.
Qed.

Lemma sortBy_acc_Permutation (l acc : list A) :
  fold_left (fun acc x => insert_sorted cmp x acc) l acc ≡ₚ acc ++ l.
Proof.
  revert acc. induction l as [|x l IH]; intros acc; simpl.
  - by rewrite app_nil_r.
  - rewrite IH, insert_sorted_Permutation.
    by rewrite (Permutation_middle acc l x).
Qed.

Lemma sortBy_Permutation (l : list A) : sortBy cmp l ≡ₚ l.
Proof. unfold sortBy. by rewrite sortBy_acc_Permutation. Qed.

Lemma elem_of_sortBy (x : A) (l : list A) : x ∈ sortBy cmp l <-> x ∈ l.
Proof. by rewrite sortBy_Permutation. Qed.

(** The comparator is consistent: it orients every pair and is transitive. *)
Hypothesis cmp_asym : forall x y, 0 < cmp y x -> cmp x y <= 0.
Hypothesis cmp_trans : forall x y z, cmp x y <= 0 -> cmp y z <= 0 -> cmp x z <= 0.

Lemma insert_sorted_StronglySorted (x : A) (l : list A) :
  StronglySorted (fun a b => cmp a b <= 0) l ->
  StronglySorted (fun a b => cmp a b <= 0) (insert_sorted cmp x l).
Proof.
  induction 1 as [|y l Hl IH Hy]; simpl.
  - repeat constructor.
  - destruct (0 <? cmp y x) eqn:E.
    + apply Z.ltb_lt in E. constructor; [by constructor|].
      constructor; [by apply cmp_asym|].
      eapply Forall_impl; [exact Hy|]. intros z Hz.
      eapply cmp_trans; [by apply cmp_asym|done].
    + apply Z.ltb_ge in E. constructor; [done|].
      rewrite insert_sorted_Permutation. by constructor.
Qed.

Lemma sortBy_StronglySorted (l : list A) :
  StronglySorted (fun a b => cmp a b <= 0) (sortBy cmp l).
Proof.
  unfold sortBy.
  assert (H : StronglySorted (fun a b => cmp a b <= 0) (@nil A)) by constructor.
  revert H. generalize (@nil A) as acc.
  induction l as [|x l IH]; intros acc Hacc; simpl; [done|].
  apply IH. by apply insert_sorted_StronglySorted.
Qed.

End SortFacts.

(** ** The insertion-ordered map *)

Module JsMapFacts.
Import JsMap.

Lemma get_set_eq k v m : get k (set k v m) = Some v.
Proof.
  induction m as [|[k' v'] m IH]; simpl.
  - by rewrite Z.eqb_refl.
  - destruct (Z.eqb k k') eqn:E; simpl; rewrite ?Z.eqb_refl, ?E; done.
Qed.

Lemma get_set_ne k k' v m : k <> k' -> get k' (set k v m) = get k' m.
Proof.
  intros Hne. induction m as [|[k0 v0] m IH]; simpl.
  - destruct (Z.eqb_spec k' k); [congruence|done].
  - destruct (Z.eqb_spec k k0) as [->|]; simpl.
    + destruct (Z.eqb_spec k' k0); [congruence|done].
    + by rewrite IH.
Qed.

Lemma keys_set k v m :
  keys (set k v m) = if bool_decide (k ∈ keys m) then keys m else keys m ++ [k].
Proof.
  induction m as [|[k0 v0] m IH]; simpl; [done|].
  destruct (Z.eqb_spec k k0) as [->|Hne]; simpl.
  - rewrite bool_decide_eq_true_2; [done|]. unfold keys; simpl. by left.
  - rewrite IH. unfold keys; simpl. fold (keys m).
    destruct (bool_decide_reflect (k ∈ keys m)) as [Hin|Hnin].
    + rewrite bool_decide_eq_true_2; [done|]. by right.
    + rewrite bool_decide_eq_false_2; [done|].
      intros Hin. apply elem_of_cons in Hin as [?|?]; done.
Qed.

Lemma NoDup_keys_set k v m : NoDup (keys m) -> NoDup (keys (set k v m)).
Proof.
  intros Hnd. rewrite keys_set.
  destruct (bool_decide_reflect (k ∈ keys m)); [done|].
  apply NoDup_app. split; [done|]. split.
  - intros x Hx Hx'. apply list_elem_of_singleton in Hx'. by subst.
  - apply NoDup_singleton.
Qed.

Lemma elem_of_set k v k' v' m :
  (k', v') ∈ set k v m -> (k' = k /\ v' = v) \/ (k', v') ∈ m.
Proof.
  induction m as [|[k0 v0] m IH]; simpl.
  - intros H. apply list_elem_of_singleton in H. left. by inversion H.
  - destruct (Z.eqb_spec k k0) as [->|Hne]; intros H;
      apply elem_of_cons in H as [H|H].
    + left. by inversion H.
    + right. by right.
    + right. rewrite H. by left.
    + destruct (IH H) as [?|?]; [by left|]. right. by right.
Qed.

(** With distinct keys, the only value stored under [k] is [get k]. *)
Lemma filter_values_get (k : Z) (m : list (Z * Message)) :
  NoDup (keys m) ->
  (forall k' v', (k', v') ∈ m -> msg_id v' = Some k') ->
  filter (fun v => msg_id v = Some k) (values m) = option_list (get k m).
Proof.
  induction m as [|[k0 v0] m IH]; intros Hnd Hid; simpl; [done|].
  unfold keys in Hnd; simpl in Hnd. apply NoDup_cons in Hnd as [Hk0 Hnd].
  assert (Hid0 : msg_id v0 = Some k0) by (apply Hid; by left).
  assert (Hid' : forall k' v', (k', v') ∈ m -> msg_id v' = Some k')
    by (intros; apply Hid; by right).
  unfold values in *; simpl.
  destruct (Z.eqb_spec k k0) as [->|Hne].
  - rewrite filter_cons_True by done.
    rewrite (IH Hnd Hid').
    destruct (get k0 m) as [v|] eqn:E; [|done].
    exfalso. apply Hk0. clear -E.
    induction m as [|[k1 v1] m IH]; simpl in *; [done|].
    destruct (Z.eqb_spec k0 k1) as [->|]; [by left|right; auto].
  - rewrite filter_cons_False by (rewrite Hid0; congruence).
    by apply IH.
Qed.

End JsMapFacts.

(** ** The merge *)

Section MergeFacts.
Import JsMap JsMapFacts.
Variable T : gset Z.

Lemma mapInv_nil : mapInv T [].
Proof. split; [constructor|]. intros k v H. by apply elem_of_nil in H. Qed.

Lemma mapInv_addMessage m msg : mapInv T m -> mapInv T (addMessage T m msg).
Proof.
  intros [Hnd Hall]. unfold addMessage.
  destruct (msg_id msg) as [i|] eqn:Hid; [|done].
  destruct (Z.eqb_spec i 0) as [|Hi0]; simpl; [done|].
  destruct (bool_decide_reflect (i ∈ T)) as [|HiT]; simpl; [done|].
  split; [by apply NoDup_keys_set|].
  intros k v Hin. apply elem_of_set in Hin as [[-> ->]|Hin]; auto.
Qed.

Lemma mapInv_addMessages msgs m : mapInv T m -> mapInv T (addMessages T msgs m).
Proof.
  revert m. induction msgs as [|x msgs IH]; intros m Hm; simpl; [done|].
  apply IH. by apply mapInv_addMessage.
Qed.

Lemma mapInv_messageMapOf H L : mapInv T (messageMapOf H L T).
Proof. unfold messageMapOf. do 2 apply mapInv_addMessages. apply mapInv_nil. Qed.

Lemma addMessages_snoc msgs x m :
  addMessages T (msgs ++ [x]) m = addMessage T (addMessages T msgs m) x.
Proof. unfold addMessages. by rewrite fold_left_app. Qed.

Lemma get_addMessage i m msg :
  i <> 0 -> i ∉ T ->
  get i (addMessage T m msg) =
    if bool_decide (msg_id msg = Some i) then Some msg else get i m.
Proof.
  intros Hi0 HiT. unfold addMessage.
  destruct (msg_id msg) as [j|] eqn:Hid;
    [|by rewrite bool_decide_eq_false_2].
  destruct (decide (j = i)) as [->|Hne].
  - rewrite (bool_decide_eq_true_2 (Some i = Some i)) by done.
    destruct (Z.eqb_spec i 0); [done|]. simpl.
    rewrite (bool_decide_eq_false_2 (i ∈ T)) by done. simpl. apply get_set_eq.
  - rewrite (bool_decide_eq_false_2 (Some j = Some i)) by congruence.
    destruct (negb (j =? 0) && negb (bool_decide (j ∈ T))); [|done].
    by apply get_set_ne.
Qed.

Lemma get_addMessages i msgs m :
  i <> 0 -> i ∉ T ->
  get i (addMessages T msgs m) =
    match lastWithId i msgs with
    | Some v => Some v
    | None => get i m
    end.
Proof.
  intros Hi0 HiT. unfold lastWithId.
  induction msgs as [|x msgs IH] using rev_ind; [done|].
  rewrite addMessages_snoc, get_addMessage, filter_app by done.
  rewrite filter_singleton by exact [].
  destruct (decide (msg_id x = Some i)) as [Hx|Hx].
  - rewrite bool_decide_eq_true_2 by done. by rewrite last_snoc.
  - rewrite bool_decide_eq_false_2 by done. by rewrite app_nil_r.
Qed.

Lemma elem_of_reconcile m H L :
  m ∈ reconcile H L T <-> exists k, (k, m) ∈ messageMapOf H L T.
Proof.
  unfold reconcile. rewrite elem_of_sortBy. unfold values.
  rewrite list_elem_of_In, in_map_iff. split.
  - intros [[k v] [<- Hin]]. exists k. by apply list_elem_of_In.
  - intros [k Hin]. exists (k, m). split; [done|]. by apply list_elem_of_In.
Qed.

Lemma reconcile_id m H L :
  m ∈ reconcile H L T -> exists i, msg_id m = Some i /\ i <> 0 /\ i ∉ T.
Proof.
  intros Hin. apply elem_of_reconcile in Hin as [k Hin].
  exists k. by apply (mapInv_messageMapOf H L).
Qed.

Lemma filter_reconcile i H L :
  filter (fun m => msg_id m = Some i) (reconcile H L T) =
  option_list (get i (messageMapOf H L T)).
Proof.
  destruct (mapInv_messageMapOf H L) as [Hnd Hall].
  rewrite <- filter_values_get; [|done|intros; by apply Hall].
  set (P := fun m => msg_id m = Some i).
  assert (Hp : filter P (reconcile H L T) ≡ₚ
               filter P (values (messageMapOf H L T))).
  { unfold reconcile. by rewrite sortBy_Permutation. }
  assert (Hlen : (length (filter P (values (messageMapOf H L T))) <= 1)%nat).
  { unfold P. rewrite filter_values_get; [|done|intros; by apply Hall].
    destruct (get i _); simpl; lia. }
  destruct (filter P (values (messageMapOf H L T))) as [|v [|w l]].
  - by apply Permutation_nil_r in Hp.
  - by apply Permutation_singleton_r in Hp.
  - simpl in Hlen. lia.
Qed.

Lemma NoDup_viewIds_reconcile H L : NoDup (viewIds (reconcile H L T)).
Proof.
  destruct (mapInv_messageMapOf H L) as [Hnd Hall].
  unfold reconcile, viewIds. rewrite sortBy_Permutation.
  revert Hnd Hall. generalize (messageMapOf H L T) as m.
  induction m as [|[k v] m IH]; intros Hnd Hall; simpl; [constructor|].
  unfold keys in Hnd; simpl in Hnd. apply NoDup_cons in Hnd as [Hk Hnd].
  destruct (Hall k v) as (Hv & _); [by left|]. rewrite Hv. simpl.
  apply NoDup_cons. split.
  - intros Hin. apply list_elem_of_omap in Hin as (w & Hw & Hidw).
    apply list_elem_of_In, in_map_iff in Hw as [[k' w'] [Hsnd Hin']].
    simpl in Hsnd; subst w'. apply list_elem_of_In in Hin'.
    destruct (Hall k' w) as (Hw' & _); [by right|].
    assert (k' = k) by congruence. subst k'.
    apply Hk. apply list_elem_of_In, in_map_iff. exists (k, w).
    split; [done|]. by apply list_elem_of_In.
  - apply IH; [done|]. intros; apply Hall; by right.
Qed.

End MergeFacts.

(** ** Consistency of the two comparators *)

Lemma mergeCmp_asym x y : 0 < mergeCmp y x -> mergeCmp x y <= 0.
Proof. unfold mergeCmp. lia. Qed.

Lemma mergeCmp_trans x y z :
  mergeCmp x y <= 0 -> mergeCmp y z <= 0 -> mergeCmp x z <= 0.
Proof. unfold mergeCmp. lia. Qed.

Ltac render_cases :=
  unfold renderCmp;
  repeat match goal with
         | |- context [hasTranslation ?tr ?m] =>
             let b := fresh "b" in
             generalize (hasTranslation tr m); intros b; destruct b
         end;
  repeat match goal with
         | |- context [timeOf ?m] =>
             let t := fresh "t" in generalize (timeOf m); intros t
         end;
  simpl;
  repeat match goal with
         | |- context [?a <? ?b] => destruct (Z.ltb_spec a b)
         end;
  simpl; try lia.

Lemma renderCmp_asym tr x y : 0 < renderCmp tr y x -> renderCmp tr x y <= 0.
Proof. render_cases. Qed.

Lemma renderCmp_trans tr x y z :
  renderCmp tr x y <= 0 -> renderCmp tr y z <= 0 -> renderCmp tr x z <= 0.
Proof. render_cases. Qed.

Lemma renderCmp_renderBefore tr a b :
  renderCmp tr a b <= 0 <-> renderBefore tr a b.
Proof.
  unfold renderBefore, renderCmp.
  generalize (hasTranslation tr a) (hasTranslation tr b) (timeOf a) (timeOf b).
  intros ha hb ta tb.
  destruct (Z.ltb_spec (Z.abs (ta - tb)) 1000) as [Hlt|Hge].
  - rewrite bool_decide_eq_true_2 by done.
    destruct ha, hb; simpl; split; intros; try lia; try done; intuition congruence.
  - rewrite bool_decide_eq_false_2 by lia. simpl. lia.
Qed.

Lemma StronglySorted_impl {A} (R1 R2 : A -> A -> Prop) (l : list A) :
  (forall a b, R1 a b -> R2 a b) -> StronglySorted R1 l -> StronglySorted R2 l.
Proof.
  intros Himp. induction 1 as [|x l Hl IH Hx]; constructor; [done|].
  eapply Forall_impl; [exact Hx|]. auto.
Qed.

(** ** Claims about the merge *)

(** C1 (tombstone supremacy). For every historical list [H], live list [L]
    and tombstone set [T], a message whose id is in [T] is not in the
    reconciled output, whether the id occurs in [H], in [L], in both or in
    neither. *)
Theorem tombstone_supremacy (H L : list Message) (T : gset Z) (i : Z) (m : Message) :
  i ∈ T -> msg_id m = Some i -> m ∉ reconcile H L T.
Proof.
  intros HiT Hid Hin. apply reconcile_id in Hin as (j & Hj & _ & HjT).
  congruence.
Qed.

Lemma tombstone_supremacy_witness :
  let h := mkMessage (Some 5) 1 "bob" "Bob" (Some "old") (Some 100) in
  let l := mkMessage (Some 5) 1 "bob" "Bob" (Some "new") (Some 100) in
  (h ∉ reconcile [h] [l] {[5]}) /\ (l ∉ reconcile [h] [l] {[5]}).
Proof.
  split.
  - apply (tombstone_supremacy _ _ {[5]} 5); [by apply elem_of_singleton|reflexivity].
  - apply (tombstone_supremacy _ _ {[5]} 5); [by apply elem_of_singleton|reflexivity].
Defined.

(** The two reconciliation scenarios of the specification. *)
Example reconcile_scenario_live_wins :
  let h1 := mkMessage (Some 1) 1 "bob" "Bob" None (Some 100) in
  let l1 := mkMessage (Some 1) 1 "bob" "Bob" (Some "edited-equivalent") (Some 100) in
  let l2 := mkMessage (Some 2) 1 "bob" "Bob" None (Some 101) in
  reconcile [h1] [l1; l2] ∅ = [l1; l2].
Proof. reflexivity. Qed.

Example reconcile_scenario_tombstone :
  reconcile [mkMessage (Some 5) 1 "bob" "Bob" None None] [] {[5]} = [].
Proof. reflexivity. Qed.

(** C2, as amended (dedup). For an id that is neither falsy (0) nor
    tombstoned and that occurs in the live list (and in the historical one),
    the output holds exactly one message with that id, and it is the last
    live message carrying the id. *)
Theorem dedup_live_wins (H L : list Message) (T : gset Z) (i : Z) (h v : Message) :
  i <> 0 -> i ∉ T ->
  h ∈ H -> msg_id h = Some i ->
  lastWithId i L = Some v ->
  filter (fun m => msg_id m = Some i) (reconcile H L T) = [v].
Proof.
  intros Hi0 HiT _ _ Hlast.
  rewrite filter_reconcile. unfold messageMapOf.
  rewrite get_addMessages by done. by rewrite Hlast.
Qed.

Lemma dedup_live_wins_witness :
  let h := mkMessage (Some 1) 1 "bob" "Bob" (Some "a") (Some 100) in
  let l := mkMessage (Some 1) 1 "bob" "Bob" (Some "edited-equivalent") (Some 100) in
  let l2 := mkMessage (Some 2) 1 "bob" "Bob" (Some "b") (Some 101) in
  filter (fun m => msg_id m = Some 1) (reconcile [h] [l; l2] ∅) = [l].
Proof.
  intros h l l2.
  apply (dedup_live_wins [h] [l; l2] ∅ 1 h l).
  - lia.
  - apply not_elem_of_empty.
  - by left.
  - reflexivity.
  - reflexivity.
Defined.

(** C2, as stated, fails for a tombstoned id: the id is in both lists and no
    message with that id is in the output. *)
Lemma dedup_counterexample :
  let h := mkMessage (Some 5) 1 "bob" "Bob" (Some "old") (Some 100) in
  let l := mkMessage (Some 5) 1 "bob" "Bob" (Some "new") (Some 100) in
  h ∈ [h] /\ l ∈ [l] /\ msg_id h = Some 5 /\ msg_id l = Some 5 /\
  length (filter (fun m => msg_id m = Some 5) (reconcile [h] [l] {[5]})) <> 1%nat.
Proof.
  intros h l. repeat split; try (by left). vm_compute. discriminate.
Qed.

(** The merged list is in ascending order of [timeOf]. *)
Lemma reconcile_sorted (H L : list Message) (T : gset Z) :
  SpecWords.sortedByTimestamp (reconcile H L T).
Proof.
  unfold SpecWords.sortedByTimestamp, reconcile.
  eapply StronglySorted_impl;
    [|apply sortBy_StronglySorted; [apply mergeCmp_asym|apply mergeCmp_trans]].
  unfold mergeCmp. intros a b. simpl. lia.
Qed.

(** C8 (malformed input). [reconcile] is a total function: it yields a list
    for every input. A message without id is not in the output. A message
    without timestamp is ordered as if its time were the epoch, 0: whenever
    it is in the output, no message before it has a time after the epoch. *)
Theorem reconcile_malformed (H L : list Message) (T : gset Z)
    (m : Message) (before after : list Message) :
  reconcile H L T = before ++ m :: after ->
  msg_id m <> None /\
  (msg_timestamp m = None ->
   timeOf m = 0 /\ Forall (fun x => timeOf x <= 0) before).
Proof.
  intros Hout. split.
  - assert (Hin : m ∈ reconcile H L T).
    { rewrite Hout. apply elem_of_app. right. by left. }
    apply reconcile_id in Hin as (i & Hi & _). congruence.
  - intros Hts.
    assert (Ht : timeOf m = 0) by (unfold timeOf; by rewrite Hts).
    split; [done|].
    pose proof (reconcile_sorted H L T) as Hs.
    unfold SpecWords.sortedByTimestamp in Hs. rewrite Hout in Hs.
    apply Forall_forall. intros x Hx. rewrite <- Ht.
    apply (StronglySorted_app_1_elem_of (fun a b => timeOf a <= timeOf b)
             before (m :: after) x m); [done|done|by left].
Qed.

Lemma reconcile_malformed_witness :
  let noId := mkMessage None 1 "bob" "Bob" (Some "x") (Some 50) in
  let noTime := mkMessage (Some 3) 1 "bob" "Bob" (Some "y") None in
  let late := mkMessage (Some 4) 1 "bob" "Bob" (Some "z") (Some 100) in
  reconcile [late; noId] [noTime] ∅ = [] ++ noTime :: [late] /\
  msg_id noTime <> None /\
  (msg_timestamp noTime = None ->
   timeOf noTime = 0 /\ Forall (fun x => timeOf x <= 0) []).
Proof.
  intros noId noTime late. split; [reflexivity|].
  apply (reconcile_malformed [late; noId] [noTime] ∅ noTime [] [late]).
  reflexivity.
Defined.

(** ** Claims about the order *)

(** C3, as amended (ordering). The merged list is sorted by timestamp
    ascending. The rendered sequence is sorted by the render comparator: of
    two messages less than a second apart of which exactly one has a cached
    translation, the untranslated one comes first; every other pair is in
    timestamp order. In particular no translated message precedes an
    untranslated one that is less than a second away. *)
Theorem rendered_order_sorted (H L : list Message) (T : gset Z) (s : ChatState) :
  SpecWords.sortedByTimestamp (reconcile H L T) /\
  StronglySorted (renderBefore (translatedMessages s)) (renderedMessages s) /\
  SpecWords.translatedAfter (translatedMessages s) (renderedMessages s).
Proof.
  split; [apply reconcile_sorted|].
  assert (Hs : StronglySorted (renderBefore (translatedMessages s)) (renderedMessages s)).
  { unfold renderedMessages.
    eapply StronglySorted_impl;
      [|apply sortBy_StronglySorted; [apply renderCmp_asym|apply renderCmp_trans]].
    intros a b. apply renderCmp_renderBefore. }
  split; [done|].
  unfold SpecWords.translatedAfter.
  eapply StronglySorted_impl; [|exact Hs].
  intros a b Hab Hclose [Ha Hb]. unfold renderBefore in Hab.
  rewrite bool_decide_eq_true_2 in Hab by done.
  rewrite Ha, Hb in Hab. simpl in Hab. destruct Hab; congruence.
Qed.

(** C3, as stated, fails: with a translated message half a second before an
    untranslated one, the rendered sequence is not in timestamp order, and
    no order of the two messages would satisfy both halves of the claim. *)
Lemma ordering_counterexample :
  let a := mkMessage (Some 1) 1 "bob" "Bob" (Some "a") (Some 0) in
  let b := mkMessage (Some 2) 1 "bob" "Bob" (Some "b") (Some 500) in
  let s := mkChatState [a; b] {[1 := "translated"]} ∅ false false "ja" in
  renderedMessages s = [b; a] /\
  ~ (SpecWords.sortedByTimestamp (renderedMessages s) /\
     SpecWords.translatedAfter (translatedMessages s) (renderedMessages s)).
Proof.
  intros a b s.
  assert (Hr : renderedMessages s = [b; a]) by (vm_compute; reflexivity).
  split; [done|]. rewrite Hr. intros [Hsorted _].
  apply StronglySorted_cons in Hsorted as [Hb _].
  apply Forall_cons in Hb as [Hba _]. vm_compute in Hba. by apply Hba.
Qed.

(** ** The mention pattern *)

Module RegexFacts.
Import Regex.

Lemma matchLiteralThenBoundary_spec (pat : string) :
  forall (prev : ascii) (text : string),
  matchLiteralThenBoundary prev pat text = true <->
  exists mid post : string,
    text = String.append mid post /\
    eqb_ci_string pat mid = true /\
    xorb (isWordChar (lastChar prev mid)) (startsWithWordChar post) = true.
Proof.
  induction pat as [|p pat IH]; intros prev text; simpl.
  - split.
    + intros Hb. exists EmptyString, text. by destruct text.
    + intros (mid & post & -> & Hmid & Hb).
      destruct mid; [|done]. simpl in *. by destruct post.
  - destruct text as [|c text].
    + split; [done|]. intros (mid & post & Htext & Hmid & _).
      destruct mid; [done|]. done.
    + rewrite andb_true_iff, IH. split.
      * intros (Hpc & mid & post & -> & Hmid & Hb).
        exists (String c mid), post. simpl. by rewrite Hpc, Hmid.
      * intros (mid & post & Htext & Hmid & Hb).
        destruct mid as [|c' mid]; [done|]. simpl in Htext. inversion Htext; subst.
        apply andb_true_iff in Hmid as [Hpc Hmid].
        split; [done|]. by exists mid, post.
Qed.

Lemma testMention_unfold (name text : string) :
  testMention name text =
    matchLiteralThenBoundary "@"%char (String "@"%char name) text ||
    match text with
    | EmptyString => false
    | String _ text' => testMention name text'
    end.
Proof. by destruct text. Qed.

(** The executable matcher decides [atMentioned]. *)
Lemma testMention_spec (name text : string) :
  testMention name text = true <-> atMentioned name text.
Proof.
  unfold atMentioned. split.
  - induction text as [|c text IH]; rewrite testMention_unfold.
    + simpl. done.
    + intros Ht. apply orb_true_iff in Ht as [Hm|Ht].
      * apply matchLiteralThenBoundary_spec in Hm as (mid & post & Htext & Hmid & Hb).
        by exists EmptyString, mid, post.
      * destruct (IH Ht) as (pre & mid & post & -> & Hmid & Hb).
        by exists (String c pre), mid, post.
  - intros (pre & mid & post & -> & Hmid & Hb).
    induction pre as [|c pre IH]; rewrite testMention_unfold;
      cbn [String.append]; apply orb_true_iff.
    + left. apply matchLiteralThenBoundary_spec. by exists mid, post.
    + right. exact IH.
Qed.

Lemma testMention_empty (name : string) : testMention name "" = false.
Proof. reflexivity. Qed.

End RegexFacts.

(** ** Mention detection *)

Section MentionFacts.
Variable getDisplayName : User -> string.
Variable newRegExp : string -> option (string -> bool).

Lemma isNewMessage_spec (prev : gset Z) (message : Message) :
  isNewMessage prev message = true <->
  exists i, msg_id message = Some i /\ i <> 0 /\ i ∉ prev.
Proof.
  unfold isNewMessage. destruct (msg_id message) as [i|].
  - rewrite andb_true_iff, !negb_true_iff, Z.eqb_neq, bool_decide_eq_false.
    split; [intros []; eauto|]. intros (j & Hj & ? & ?). by inversion Hj; subst.
  - split; [done|]. by intros (i & ? & _).
Qed.

Lemma isNotFromSelf_spec (u : User) (message : Message) :
  isNotFromSelf (Some u) message = true <-> msg_senderId message <> user_id u.
Proof.
  unfold isNotFromSelf. rewrite negb_true_iff.
  destruct (String.eqb_spec (msg_senderId message) (user_id u)); split; congruence.
Qed.

(** The verdict [true] comes from the compiled pattern applied to a text
    that is not empty. *)
Lemma isUserMentioned_true (user : option User) (message : Message) :
  isUserMentioned getDisplayName newRegExp user message = Some true <->
  exists u text mentionPattern,
    user = Some u /\ msg_originalText message = Some text /\ text <> "" /\
    newRegExp (Regex.mentionSource (getDisplayName u)) = Some mentionPattern /\
    mentionPattern text = true.
Proof.
  unfold isUserMentioned. split.
  - destruct user as [u|]; [|done].
    destruct (msg_originalText message) as [text|]; [|done].
    destruct (String.eqb_spec text ""); [done|].
    destruct (newRegExp _) as [re|] eqn:Hre; [|done].
    intros [= Ht]. by exists u, text, re.
  - intros (u & text & re & -> & -> & Hne & -> & Ht).
    destruct (String.eqb_spec text ""); [done|]. by rewrite Ht.
Qed.

(** The construction of the pattern does not depend on the message: once
    it throws, no message is found to mention the user. *)
Lemma isUserMentioned_None (user : option User) (message other : Message) :
  isUserMentioned getDisplayName newRegExp user message = None ->
  isUserMentioned getDisplayName newRegExp user other <> Some true.
Proof.
  intros Hnone Htrue.
  apply isUserMentioned_true in Htrue as (u & text & re & -> & _ & _ & Hre & _).
  unfold isUserMentioned in Hnone. rewrite Hre in Hnone.
  destruct (msg_originalText message) as [t|]; [|done].
  by destruct (String.eqb t "").
Qed.

Lemma isUserMentioned_compiles (user : option User) (message : Message) :
  mentionPatternCompiles getDisplayName newRegExp user ->
  is_Some (isUserMentioned getDisplayName newRegExp user message).
Proof.
  intros Hc. unfold isUserMentioned. destruct user as [u|]; [|done].
  destruct (msg_originalText message) as [text|]; [|done].
  destruct (String.eqb text ""); [done|].
  by destruct (Hc u eq_refl) as [re ->].
Qed.

Lemma mention_verdicts (user : option User) (msgs : list Message) :
  (forall m, m ∈ msgs -> is_Some (isUserMentioned getDisplayName newRegExp user m)) \/
  (exists m, m ∈ msgs /\ isUserMentioned getDisplayName newRegExp user m = None).
Proof.
  induction msgs as [|x msgs [IH|(m & Hin & Hm)]].
  - left. by intros m ?%elem_of_nil.
  - destruct (isUserMentioned getDisplayName newRegExp user x) as [b|] eqn:Hx.
    + left. intros m [->|Hin]%elem_of_cons; [by rewrite Hx|by apply IH].
    + right. exists x. split; [by left|done].
  - right. exists m. split; [by right|done].
Qed.

Lemma detectNewMentions_Completed (prev : gset Z) (user : option User)
    (msgs : list Message) :
  (forall m, m ∈ msgs -> is_Some (isUserMentioned getDisplayName newRegExp user m)) ->
  detectNewMentions getDisplayName newRegExp prev user msgs =
  Completed
    (viewIds (filter (fun m => isNewMessage prev m = true /\
                               isNotFromSelf user m = true /\
                               isUserMentioned getDisplayName newRegExp user m = Some true)
                msgs)).
Proof.
  induction msgs as [|x msgs IH]; intros Hall; [done|].
  cbn [detectNewMentions].
  destruct (Hall x) as [b Hb]; [by left|]. rewrite Hb.
  rewrite IH by (intros m Hm; apply Hall; by right). f_equal.
  rewrite filter_cons. unfold triggersMention.
  destruct (decide (isNewMessage prev x = true /\ isNotFromSelf user x = true /\
                    isUserMentioned getDisplayName newRegExp user x = Some true))
    as [(Hn & Hs & Hm)|Hno].
  - apply isNewMessage_spec in Hn as Hi. destruct Hi as (i & Hi & _).
    rewrite Hb in Hm. injection Hm as ->.
    rewrite Hi, Hn, Hs. unfold viewIds. simpl. by rewrite Hi.
  - destruct (msg_id x) as [i|]; [|done].
    destruct (isNewMessage prev x) eqn:Hn; [|done].
    destruct (isNotFromSelf user x) eqn:Hs; [|done].
    destruct b; [|done]. by destruct Hno.
Qed.

Lemma detectNewMentions_Threw (prev : gset Z) (user : option User)
    (msgs : list Message) :
  (exists m, m ∈ msgs /\ isUserMentioned getDisplayName newRegExp user m = None) ->
  detectNewMentions getDisplayName newRegExp prev user msgs = Threw [].
Proof.
  intros (m & Hin & Hm).
  induction msgs as [|x msgs IH]; [by apply elem_of_nil in Hin|].
  cbn [detectNewMentions].
  destruct (isUserMentioned getDisplayName newRegExp user x) as [b|] eqn:Hx; [|done].
  assert (Hb : b = false).
  { destruct b; [|done]. by destruct (isUserMentioned_None user m x Hm). }
  subst b. apply elem_of_cons in Hin as [->|Hin]; [congruence|].
  rewrite (IH Hin). unfold triggersMention. rewrite andb_false_r.
  by destruct (msg_id x).
Qed.

Lemma updateMentioned_Some (user : option User) (msgs : list Message)
    (updated : gset Z) :
  (forall m, m ∈ msgs -> is_Some (isUserMentioned getDisplayName newRegExp user m)) ->
  exists upd,
    updateMentioned getDisplayName newRegExp user msgs updated = Some upd /\
    forall i, i ∈ upd <->
      i ∈ updated \/
      exists message, message ∈ msgs /\ msg_id message = Some i /\ i <> 0 /\
        isUserMentioned getDisplayName newRegExp user message = Some true.
Proof.
  revert updated. induction msgs as [|x msgs IH]; intros updated Hall.
  - exists updated. split; [done|]. intros i. split; [by left|].
    intros [?|(? & ?%elem_of_nil & _)]; done.
  - assert (Hall' : forall m, m ∈ msgs ->
              is_Some (isUserMentioned getDisplayName newRegExp user m))
      by (intros m Hm; apply Hall; by right).
    assert (Hskip : forall upd0 : gset Z,
      ~ (exists i, msg_id x = Some i /\ i <> 0 /\
           isUserMentioned getDisplayName newRegExp user x = Some true) ->
      exists upd,
        updateMentioned getDisplayName newRegExp user msgs upd0 = Some upd /\
        forall i, i ∈ upd <->
          i ∈ upd0 \/
          exists message, message ∈ x :: msgs /\ msg_id message = Some i /\ i <> 0 /\
            isUserMentioned getDisplayName newRegExp user message = Some true).
    { intros upd0 Hx. destruct (IH upd0 Hall') as (upd & Hupd & Hspec).
      exists upd. split; [done|]. intros i. rewrite Hspec. split.
      - intros [?|(m & ? & ?)]; [by left|]. right. exists m. split; [by right|done].
      - intros [?|(m & [->|Hin]%elem_of_cons & Hm)]; [by left| |right; eauto].
        destruct Hx. exists i. tauto. }
    cbn [updateMentioned]. destruct (msg_id x) as [j|] eqn:Hj.
    + destruct (Z.eqb_spec j 0) as [Hj0|Hj0]; simpl.
      * apply Hskip. intros (i & [= <-] & ? & _). done.
      * destruct (Hall x) as [b Hb]; [by left|]. rewrite Hb. destruct b.
        -- destruct (IH ({[j]} ∪ updated) Hall') as (upd & Hupd & Hspec).
           exists upd. split; [done|]. intros i.
           rewrite Hspec, elem_of_union, elem_of_singleton. split.
           ++ intros [[->|?]|(m & ? & ?)].
              ** right. exists x. split; [by left|done].
              ** by left.
              ** right. exists m. split; [by right|done].
           ++ intros [?|(m & [->|Hin]%elem_of_cons & Hid & Hm)].
              ** left. by right.
              ** left. left. congruence.
              ** right. eauto.
        -- apply Hskip. intros (i & _ & _ & ?). congruence.
    + apply Hskip. intros (i & ? & _). done.
Qed.

Lemma viewIds_sublist (l1 l2 : list Message) :
  sublist l1 l2 -> sublist (viewIds l1) (viewIds l2).
Proof.
  unfold viewIds. induction 1 as [|x l1 l2 _ IH|x l1 l2 _ IH]; simpl.
  - constructor.
  - destruct (msg_id x); simpl; [by apply sublist_skip|done].
  - destruct (msg_id x); simpl; [by apply sublist_cons|done].
Qed.

End MentionFacts.

Section MentionClaims.
Variable getDisplayName : User -> string.
Variable newRegExp : string -> option (string -> bool).

Lemma reconcile_id_unique (H L : list Message) (T : gset Z) (i : Z) (a b : Message) :
  a ∈ reconcile H L T -> b ∈ reconcile H L T ->
  msg_id a = Some i -> msg_id b = Some i -> a = b.
Proof.
  intros Ha Hb Hia Hib.
  assert (Ha' : a ∈ filter (fun m => msg_id m = Some i) (reconcile H L T))
    by (by apply list_elem_of_filter).
  assert (Hb' : b ∈ filter (fun m => msg_id m = Some i) (reconcile H L T))
    by (by apply list_elem_of_filter).
  rewrite filter_reconcile in Ha', Hb'.
  destruct (JsMap.get i (messageMapOf H L T)); simpl in *.
  - apply list_elem_of_singleton in Ha', Hb'. congruence.
  - by apply elem_of_nil in Ha'.
Qed.

(** The two ways a run of the merge effect can go. *)
Lemma mergeOutcome_cases (inp : MergeInputs) (s : ChatState) :
  (exists updated,
     mergeOutcome getDisplayName newRegExp inp s =
       Stored
         (mkChatState (mergedOf inp) (translatedMessages s) updated
            (showScrollToBottom s) (isUserScrolling s) (currentLanguage s))
         (viewIds
            (filter (fun m =>
                 isNewMessage (list_to_set (viewIds (roomMessages s))) m = true /\
                 isNotFromSelf (user inp) m = true /\
                 isUserMentioned getDisplayName newRegExp (user inp) m = Some true)
               (mergedOf inp))) /\
     (forall m, m ∈ mergedOf inp ->
        is_Some (isUserMentioned getDisplayName newRegExp (user inp) m)) /\
     forall i, i ∈ updated <->
       i ∈ mentionedMessageIds s \/
       exists message, message ∈ mergedOf inp /\ msg_id message = Some i /\ i <> 0 /\
         isUserMentioned getDisplayName newRegExp (user inp) message = Some true) \/
  (mergeOutcome getDisplayName newRegExp inp s = Crashed [] /\
   exists m, m ∈ mergedOf inp /\
     isUserMentioned getDisplayName newRegExp (user inp) m = None).
Proof.
  unfold mergeOutcome.
  destruct (mention_verdicts getDisplayName newRegExp (user inp) (mergedOf inp))
    as [Hall|Hex].
  - left. rewrite detectNewMentions_Completed by done.
    destruct (updateMentioned_Some getDisplayName newRegExp (user inp) (mergedOf inp)
                (mentionedMessageIds s) Hall) as (upd & -> & Hspec).
    by exists upd.
  - right. by rewrite detectNewMentions_Threw.
Qed.

Lemma mergeEffect_Stored (inp : MergeInputs) (s next : ChatState) (fired : list Z) :
  mergeOutcome getDisplayName newRegExp inp s = Stored next fired ->
  mergeEffect getDisplayName newRegExp inp s = (next, fired).
Proof. unfold mergeEffect. by intros ->. Qed.

Lemma mergeEffect_Crashed (inp : MergeInputs) (s : ChatState) (fired : list Z) :
  mergeOutcome getDisplayName newRegExp inp s = Crashed fired ->
  mergeEffect getDisplayName newRegExp inp s = (s, fired).
Proof. unfold mergeEffect. by intros ->. Qed.

(** A run completes when the pattern of the signed-in user compiles. *)
Lemma mergeOutcome_completes (inp : MergeInputs) (s : ChatState) :
  mentionPatternCompiles getDisplayName newRegExp (user inp) ->
  exists next fired, mergeOutcome getDisplayName newRegExp inp s = Stored next fired.
Proof.
  intros Hc. destruct (mergeOutcome_cases inp s) as [(upd & -> & _)|(_ & m & _ & Hm)].
  - eauto.
  - destruct (isUserMentioned_compiles getDisplayName newRegExp (user inp) m Hc)
      as [b Hb]. congruence.
Qed.

Lemma Stored_inv (inp : MergeInputs) (s next : ChatState) (fired : list Z) :
  mergeOutcome getDisplayName newRegExp inp s = Stored next fired ->
  roomMessages next = mergedOf inp /\
  translatedMessages next = translatedMessages s /\
  (forall i, i ∈ fired <->
     exists message, message ∈ mergedOf inp /\ msg_id message = Some i /\
       (i ∉ viewIds (roomMessages s)) /\
       isNotFromSelf (user inp) message = true /\
       isUserMentioned getDisplayName newRegExp (user inp) message = Some true) /\
  (forall i, i ∈ mentionedMessageIds next <->
     i ∈ mentionedMessageIds s \/
     exists message, message ∈ mergedOf inp /\ msg_id message = Some i /\
       isUserMentioned getDisplayName newRegExp (user inp) message = Some true) /\
  NoDup fired.
Proof.
  destruct (mergeOutcome_cases inp s) as [(upd & -> & _ & Hupd)|(-> & _)]; [|done].
  intros [= <- <-]. simpl. split; [done|]. split; [done|]. split; [|split].
  - intros i. unfold viewIds at 1. rewrite list_elem_of_omap. split.
    + intros (m & Hm & Hid). apply list_elem_of_filter in Hm as [(Hn & Hs & Hmen) Hin].
      apply isNewMessage_spec in Hn as (j & Hj & _ & Hprev).
      assert (j = i) by congruence. subst j.
      rewrite elem_of_list_to_set in Hprev. by exists m.
    + intros (m & Hin & Hid & Hprev & Hs & Hmen). exists m. split; [|done].
      apply list_elem_of_filter. split; [|done]. split; [|done].
      apply isNewMessage_spec. exists i. split; [done|].
      split; [|by rewrite elem_of_list_to_set].
      apply reconcile_id in Hin as (j & Hj & Hj0 & _). congruence.
  - intros i. rewrite Hupd. split.
    + intros [?|(m & ? & ? & _ & ?)]; [by left|right; eauto].
    + intros [?|(m & Hin & Hid & Hmen)]; [by left|right].
      exists m. repeat (split; [done|]). split; [|done].
      apply reconcile_id in Hin as (j & Hj & Hj0 & _). congruence.
  - eapply sublist_NoDup; [apply NoDup_viewIds_reconcile|].
    apply viewIds_sublist, sublist_filter.
Qed.

(** An id that fired belongs to a completed run and to a message that
    passed the guard of line 328. *)
Lemma fired_spec (inp : MergeInputs) (s : ChatState) (i : Z) :
  i ∈ (mergeEffect getDisplayName newRegExp inp s).2 <->
  (exists next fired, mergeOutcome getDisplayName newRegExp inp s = Stored next fired) /\
  exists message, message ∈ mergedOf inp /\ msg_id message = Some i /\
    (i ∉ viewIds (roomMessages s)) /\
    isNotFromSelf (user inp) message = true /\
    isUserMentioned getDisplayName newRegExp (user inp) message = Some true.
Proof.
  destruct (mergeOutcome getDisplayName newRegExp inp s) as [next fired|fired] eqn:E.
  - rewrite (mergeEffect_Stored _ _ _ _ E). simpl.
    destruct (Stored_inv _ _ _ _ E) as (_ & _ & Hf & _). rewrite Hf.
    split; [intros ?; split; eauto|tauto].
  - rewrite (mergeEffect_Crashed _ _ _ E). simpl.
    destruct (mergeOutcome_cases inp s) as [(upd & Hs & _)|(Hc & _)]; [congruence|].
    assert (fired = []) by congruence. subst fired.
    split; [by intros ?%elem_of_nil|]. by intros [(? & ? & ?) _].
Qed.

Lemma fired_NoDup (inp : MergeInputs) (s : ChatState) :
  NoDup (mergeEffect getDisplayName newRegExp inp s).2.
Proof.
  destruct (mergeOutcome getDisplayName newRegExp inp s) as [next fired|fired] eqn:E.
  - rewrite (mergeEffect_Stored _ _ _ _ E). simpl.
    by destruct (Stored_inv _ _ _ _ E) as (_ & _ & _ & _ & Hnd).
  - rewrite (mergeEffect_Crashed _ _ _ E). simpl.
    destruct (mergeOutcome_cases inp s) as [(upd & Hs & _)|(Hc & _)]; [congruence|].
    assert (fired = []) by congruence. subst fired. constructor.
Qed.

(** C5, as amended (mention trigger). With a signed-in user whose display
    name is plain (ASCII characters, none of them pattern syntax), and a
    [RegExp] that reads the patterns of plain names as the literal text, the
    id [i] fires a mention notification in a run of the merge effect iff the
    merged view holds a message with that id such that (a) the id is not in
    the previous view, (b) the sender is not the current user, and (c) the
    original text holds an at-mention of the display name: the character
    [@], then the name up to case, then a word boundary. Whatever the
    display name and the [RegExp], a message of the current user never
    fires. *)
Theorem mention_trigger (inp : MergeInputs) (s : ChatState) (u : User) (i : Z) :
  user inp = Some u ->
  (Regex.isLiteral (getDisplayName u) = true ->
   Regex.isAscii (getDisplayName u) = true ->
   plainPatternsAsRead newRegExp ->
   (i ∈ (mergeEffect getDisplayName newRegExp inp s).2 <->
    exists message text,
      message ∈ mergedOf inp /\ msg_id message = Some i /\
      (i ∉ viewIds (roomMessages s)) /\
      msg_senderId message <> user_id u /\
      msg_originalText message = Some text /\
      atMentioned (getDisplayName u) text)) /\
  (forall message,
     message ∈ mergedOf inp -> msg_id message = Some i ->
     msg_senderId message = user_id u ->
     i ∉ (mergeEffect getDisplayName newRegExp inp s).2).
Proof.
  intros Hu. split.
  - intros Hlit Hascii Hre.
    destruct (Hre _ Hlit Hascii) as (re & Hcomp & Htest).
    assert (Hmen : forall m,
      isUserMentioned getDisplayName newRegExp (user inp) m = Some true <->
      exists text, msg_originalText m = Some text /\
                   atMentioned (getDisplayName u) text).
    { intros m. rewrite isUserMentioned_true. split.
      - intros (u' & text & re' & Hu' & Ht & _ & Hre' & Hm).
        rewrite Hu in Hu'. injection Hu' as <-.
        assert (re' = re) by congruence. subst re'.
        exists text. split; [done|].
        apply RegexFacts.testMention_spec. by rewrite <- Htest.
      - intros (text & Ht & Hat). apply RegexFacts.testMention_spec in Hat.
        exists u, text, re. repeat (split; [done|]). split.
        + intros ->. by rewrite RegexFacts.testMention_empty in Hat.
        + split; [done|]. by rewrite Htest. }
    assert (Hdone : exists next fired,
              mergeOutcome getDisplayName newRegExp inp s = Stored next fired).
    { apply mergeOutcome_completes. intros u' Hu'.
      rewrite Hu in Hu'. injection Hu' as <-. by rewrite Hcomp. }
    rewrite fired_spec, Hu. split.
    + intros (_ & m & Hin & Hid & Hprev & Hself & Hm).
      apply isNotFromSelf_spec in Hself. rewrite <- Hu in Hm.
      apply Hmen in Hm as (text & Htext & Hat). by exists m, text.
    + intros (m & text & Hin & Hid & Hprev & Hself & Htext & Hat).
      split; [done|]. exists m. repeat (split; [done|]). split.
      * by apply isNotFromSelf_spec.
      * rewrite <- Hu. apply Hmen. eauto.
  - intros m Hin Hid Hself Hfired.
    apply fired_spec in Hfired as (_ & m' & Hin' & Hid' & _ & Hns & _).
    rewrite Hu in Hns. apply isNotFromSelf_spec in Hns.
    assert (m = m') by (eapply reconcile_id_unique; eauto).
    congruence.
Qed.

Lemma runPasses_cons (inp : MergeInputs) (inps : list MergeInputs) (s : ChatState) :
  runPasses getDisplayName newRegExp (inp :: inps) s =
    match mergeOutcome getDisplayName newRegExp inp s with
    | Stored next fired => fired :: runPasses getDisplayName newRegExp inps next
    | Crashed fired => [fired]
    end.
Proof. reflexivity. Qed.

Lemma filter_fired (inp : MergeInputs) (s : ChatState) (i : Z) :
  (length (filter (fun j => j = i)
             (mergeEffect getDisplayName newRegExp inp s).2) <= 1)%nat.
Proof.
  assert (Hnd : NoDup (filter (fun j => j = i)
                         (mergeEffect getDisplayName newRegExp inp s).2))
    by apply NoDup_filter, fired_NoDup.
  destruct (filter (fun j => j = i) (mergeEffect getDisplayName newRegExp inp s).2)
    as [|a [|b l]] eqn:Hf; simpl; [lia..|].
  exfalso.
  assert (Ha : a ∈ filter (fun j => j = i)
                     (mergeEffect getDisplayName newRegExp inp s).2)
    by (rewrite Hf; by left).
  assert (Hb : b ∈ filter (fun j => j = i)
                     (mergeEffect getDisplayName newRegExp inp s).2)
    by (rewrite Hf; right; by left).
  apply list_elem_of_filter in Ha as [-> _], Hb as [-> _].
  apply NoDup_cons in Hnd as [Hni _]. apply Hni. by left.
Qed.

Lemma runPasses_seen (inps : list MergeInputs) (s : ChatState) (i : Z) :
  i ∈ viewIds (roomMessages s) ->
  Forall (fun inp => i ∈ viewIds (mergedOf inp)) inps ->
  filter (fun j => j = i) (concat (runPasses getDisplayName newRegExp inps s)) = [].
Proof.
  revert s. induction inps as [|inp inps IH]; intros s Hs Hall; [done|].
  apply Forall_cons in Hall as [Hinp Hall].
  assert (Hnot : filter (fun j => j = i)
                   (mergeEffect getDisplayName newRegExp inp s).2 = []).
  { destruct (filter (fun j => j = i) (mergeEffect getDisplayName newRegExp inp s).2)
      as [|j l] eqn:Hf; [done|].
    assert (Hj : j ∈ filter (fun j => j = i)
                       (mergeEffect getDisplayName newRegExp inp s).2)
      by (rewrite Hf; by left).
    apply list_elem_of_filter in Hj as [-> Hj].
    apply fired_spec in Hj as (_ & m & _ & _ & Hnew & _). done. }
  rewrite runPasses_cons.
  destruct (mergeOutcome getDisplayName newRegExp inp s) as [next fired|fired] eqn:E.
  - rewrite (mergeEffect_Stored _ _ _ _ E) in Hnot. simpl in Hnot.
    cbn [concat]. rewrite filter_app, Hnot. simpl.
    apply IH; [|done]. apply Stored_inv in E as (-> & _). done.
  - rewrite (mergeEffect_Crashed _ _ _ E) in Hnot. simpl in Hnot.
    cbn [concat]. by rewrite app_nil_r.
Qed.

(** C6, as amended (mention at most once while in view). An id that is in
    the merged view of every pass of a session fires at most one mention
    notification in the whole session. In every single pass no id fires
    twice; an id fires only if it is absent from the previous view, and it
    is then in the new view and recorded in [mentionedMessageIds], which
    only grows. The notification is gated on the previous view, not on that
    record. *)
Theorem mention_once_while_in_view (inps : list MergeInputs) (s : ChatState) (i : Z) :
  Forall (fun inp => i ∈ viewIds (mergedOf inp)) inps ->
  (length (filter (fun j => j = i)
             (concat (runPasses getDisplayName newRegExp inps s))) <= 1)%nat /\
  (forall inp s0,
     NoDup (mergeEffect getDisplayName newRegExp inp s0).2 /\
     mentionedMessageIds s0 ⊆
       mentionedMessageIds (mergeEffect getDisplayName newRegExp inp s0).1 /\
     (forall j, j ∈ (mergeEffect getDisplayName newRegExp inp s0).2 ->
                (j ∉ viewIds (roomMessages s0)) /\
                j ∈ viewIds (roomMessages (mergeEffect getDisplayName newRegExp inp s0).1) /\
                j ∈ mentionedMessageIds (mergeEffect getDisplayName newRegExp inp s0).1)).
Proof.
  intros Hall. split.
  - revert s. induction inps as [|inp inps IH]; intros s; [simpl; lia|].
    apply Forall_cons in Hall as [Hinp Hall].
    pose proof (filter_fired inp s i) as Hone.
    rewrite runPasses_cons.
    destruct (mergeOutcome getDisplayName newRegExp inp s) as [next fired|fired] eqn:E.
    + rewrite (mergeEffect_Stored _ _ _ _ E) in Hone. simpl in Hone.
      cbn [concat]. rewrite filter_app.
      rewrite runPasses_seen, app_nil_r; [done| |done].
      apply Stored_inv in E as (-> & _). done.
    + rewrite (mergeEffect_Crashed _ _ _ E) in Hone. simpl in Hone.
      cbn [concat]. by rewrite app_nil_r.
  - intros inp s0. split; [apply fired_NoDup|].
    destruct (mergeOutcome getDisplayName newRegExp inp s0) as [next fired|fired] eqn:E.
    + rewrite (mergeEffect_Stored _ _ _ _ E). simpl.
      destruct (Stored_inv _ _ _ _ E) as (Hroom & _ & Hf & Hm & _). split.
      * intros j Hj. apply Hm. by left.
      * intros j Hj. apply Hf in Hj as (m & Hin & Hid & Hnew & _ & Hmen).
        split; [done|]. split.
        -- rewrite Hroom. apply list_elem_of_omap. eauto.
        -- apply Hm. right. eauto.
    + pose proof (fired_spec inp s0) as Hspec.
      rewrite (mergeEffect_Crashed _ _ _ E) in *. simpl in *. split; [done|].
      intros j Hj. apply Hspec in Hj as [(? & ? & ?) _]. congruence.
Qed.

End MentionClaims.

(** The [RegExp] of the examples reads plain names as the literal text. *)
Lemma dropLast2_source (c : ascii) (name : string) :
  Regex.dropLast2 (String c (String.append name "\b")) = String c name.
Proof.
  revert c. induction name as [|d n IH]; intros c; [reflexivity|].
  change (String.append (String d n) "\b") with (String d (String.append n "\b")).
  transitivity (String c (Regex.dropLast2 (String d (String.append n "\b"))));
    [|by rewrite IH].
  destruct n; reflexivity.
Qed.

Lemma literalRegExp_plain : plainPatternsAsRead Regex.literalRegExp.
Proof.
  intros name Hlit Hascii. exists (Regex.testMention name).
  unfold Regex.literalRegExp, Regex.mentionSource.
  by rewrite dropLast2_source, Hlit, Hascii.
Qed.

(** C4 (idempotence, purity). What a run of the merge effect stores as the
    merged view depends on the effect's inputs only: from any two component
    states the run stores the same list, in the same order, or throws in
    both; a second run on the state left by the first stores that list
    again. The list is the reconciliation of the historical and the live
    messages, and it is stored whenever the mention pattern compiles. *)
Theorem reconcile_pure_idempotent (getDisplayName : User -> string)
    (newRegExp : string -> option (string -> bool))
    (inp : MergeInputs) (s1 s2 : ChatState) :
  storedView (mergeOutcome getDisplayName newRegExp inp s1) =
    storedView (mergeOutcome getDisplayName newRegExp inp s2) /\
  storedView (mergeOutcome getDisplayName newRegExp inp
                (mergeEffect getDisplayName newRegExp inp s1).1) =
    storedView (mergeOutcome getDisplayName newRegExp inp s1) /\
  (forall view,
     storedView (mergeOutcome getDisplayName newRegExp inp s1) = Some view ->
     view = reconcile (dbMessagesOf (initialMessages inp))
              (wsMessagesOf (roomId inp) (allMessages inp)) (deletedMessageIds inp)) /\
  (mentionPatternCompiles getDisplayName newRegExp (user inp) ->
   storedView (mergeOutcome getDisplayName newRegExp inp s1) =
     Some (reconcile (dbMessagesOf (initialMessages inp))
             (wsMessagesOf (roomId inp) (allMessages inp)) (deletedMessageIds inp))).
Proof.
  assert (Hview : exists v,
    (forall s, storedView (mergeOutcome getDisplayName newRegExp inp s) = v) /\
    (forall view, v = Some view -> view = mergedOf inp) /\
    (mentionPatternCompiles getDisplayName newRegExp (user inp) ->
     v = Some (mergedOf inp))).
  { destruct (mention_verdicts getDisplayName newRegExp (user inp) (mergedOf inp))
      as [Hall|(m & Hin & Hm)].
    - exists (Some (mergedOf inp)). split; [|split; [by intros view [= <-]|done]].
      intros s.
      destruct (mergeOutcome_cases getDisplayName newRegExp inp s)
        as [(upd & -> & _)|(_ & m & Hin & Hm)]; [done|].
      destruct (Hall m Hin) as [b Hb]. congruence.
    - exists None. split; [|split; [done|]].
      + intros s.
        destruct (mergeOutcome_cases getDisplayName newRegExp inp s)
          as [(upd & _ & Hall & _)|(-> & _)]; [|done].
        destruct (Hall m Hin) as [b Hb]. congruence.
      + intros Hc.
        destruct (isUserMentioned_compiles getDisplayName newRegExp (user inp) m Hc)
          as [b Hb]. congruence. }
  destruct Hview as (v & Hv & Hsome & Hcomp).
  rewrite !Hv. split; [done|]. split; [done|]. split; [exact Hsome|exact Hcomp].
Qed.

Lemma mention_trigger_witness :
  let alice := mkUser "alice-self-id" "Alice" "Liddell" "alice@example.com" in
  let msg := mkMessage (Some 7) 1 "bob" "Bob" (Some "hi @Alice how are you") (Some 100) in
  let inp := mkMergeInputs None [msg] 1 ∅ (Some alice) in
  let s := initialState "ja" in
  user inp = Some alice /\
  Regex.isLiteral (user_firstName alice) = true /\
  Regex.isAscii (user_firstName alice) = true /\
  (7 ∈ (mergeEffect user_firstName Regex.literalRegExp inp s).2 <->
   exists message text,
     message ∈ mergedOf inp /\ msg_id message = Some 7 /\
     (7 ∉ viewIds (roomMessages s)) /\
     msg_senderId message <> user_id alice /\
     msg_originalText message = Some text /\
     atMentioned (user_firstName alice) text) /\
  (forall message,
     message ∈ mergedOf inp -> msg_id message = Some 7 ->
     msg_senderId message = user_id alice ->
     7 ∉ (mergeEffect user_firstName Regex.literalRegExp inp s).2).
Proof.
  intros alice msg inp s.
  split; [reflexivity|]. split; [reflexivity|]. split; [reflexivity|].
  destruct (mention_trigger user_firstName Regex.literalRegExp inp s alice 7 eq_refl)
    as [Hiff Hself].
  split; [|exact Hself].
  apply Hiff; [reflexivity|reflexivity|apply literalRegExp_plain].
Defined.

(** The scenario of the specification: the text [hi @Alice how are you] from
    [bob] fires, the same text from the current user does not. *)
Example mention_scenario :
  let alice := mkUser "alice-self-id" "Alice" "Liddell" "alice@example.com" in
  let fromBob := mkMessage (Some 7) 1 "bob" "Bob" (Some "hi @Alice how are you") (Some 100) in
  let fromSelf := mkMessage (Some 8) 1 "alice-self-id" "Alice" (Some "hi @Alice how are you") (Some 101) in
  let inp := mkMergeInputs None [fromBob; fromSelf] 1 ∅ (Some alice) in
  mergeOutcome user_firstName Regex.literalRegExp inp (initialState "ja") =
    Stored (mkChatState [fromBob; fromSelf] ∅ {[7; 8]} false false "ja") [7].
Proof. vm_compute. reflexivity. Qed.

(** A display name whose pattern does not compile: the run throws at the
    first message with a text, nothing fires and nothing is stored. *)
Example mention_pattern_throws :
  let alice := mkUser "alice-self-id" "Al(ice" "Liddell" "alice@example.com" in
  let msg := mkMessage (Some 7) 1 "bob" "Bob" (Some "hi @Al(ice") (Some 100) in
  let inp := mkMergeInputs None [msg] 1 ∅ (Some alice) in
  mergeOutcome user_firstName (fun _ => None) inp (initialState "ja") = Crashed [].
Proof. reflexivity. Qed.

(** C5, as stated, fails: the text holds the display name as a whole word,
    the message is new and from somebody else, and no notification fires,
    because the name is not preceded by [@]. *)
Lemma mention_trigger_counterexample :
  let alice := mkUser "alice-self-id" "Alice" "Liddell" "alice@example.com" in
  let msg := mkMessage (Some 7) 1 "bob" "Bob" (Some "hi Alice how are you") (Some 100) in
  let inp := mkMergeInputs None [msg] 1 ∅ (Some alice) in
  let s := initialState "ja" in
  mergedOf inp = [msg] /\
  (7 ∉ viewIds (roomMessages s)) /\
  msg_senderId msg <> user_id alice /\
  SpecWords.containsWholeWord (user_firstName alice) "hi Alice how are you" = true /\
  mergeOutcome user_firstName Regex.literalRegExp inp s =
    Stored (mkChatState [msg] ∅ ∅ false false "ja") [].
Proof.
  intros alice msg inp s.
  split; [vm_compute; reflexivity|].
  split; [apply not_elem_of_nil|].
  split; [discriminate|].
  split; vm_compute; reflexivity.
Qed.

Lemma mention_once_while_in_view_witness :
  let alice := mkUser "alice-self-id" "Alice" "Liddell" "alice@example.com" in
  let msg := mkMessage (Some 7) 1 "bob" "Bob" (Some "hi @Alice") (Some 100) in
  let other := mkMessage (Some 9) 1 "bob" "Bob" (Some "more") (Some 200) in
  let inps := [mkMergeInputs None [msg] 1 ∅ (Some alice);
               mkMergeInputs (Some [msg]) [msg; other] 1 ∅ (Some alice)] in
  Forall (fun inp => 7 ∈ viewIds (mergedOf inp)) inps /\
  (length (filter (fun j : Z => j = 7%Z)
     (concat (runPasses user_firstName Regex.literalRegExp inps
                (initialState "ja")))) <= 1)%nat.
Proof.
  intros alice msg other inps.
  assert (Hall : Forall (fun inp => 7 ∈ viewIds (mergedOf inp)) inps).
  { apply Forall_cons; split; [vm_compute; by left|].
    apply Forall_cons; split; [vm_compute; by left|constructor]. }
  split; [exact Hall|].
  exact (proj1 (mention_once_while_in_view user_firstName Regex.literalRegExp
                  inps (initialState "ja") 7 Hall)).
Defined.

(** C6, as stated, fails: the user leaves the room and comes back; the
    message is new relative to the view of the other room, and its
    notification fires a second time. *)
Lemma mention_once_counterexample :
  let alice := mkUser "alice-self-id" "Alice" "Liddell" "alice@example.com" in
  let msg := mkMessage (Some 7) 1 "bob" "Bob" (Some "hi @Alice") (Some 100) in
  let inRoom := fun r => mkMergeInputs None [msg] r ∅ (Some alice) in
  let fired :=
    runPasses user_firstName Regex.literalRegExp
      [inRoom 1; inRoom 2; inRoom 1] (initialState "ja") in
  Forall (fun inp => 7 ∈ viewIds (allMessages inp)) [inRoom 1; inRoom 2; inRoom 1] /\
  fired = [[7]; []; [7]] /\
  ~ (length (filter (fun j : Z => j = 7%Z) (concat fired)) <= 1)%nat.
Proof.
  intros alice msg inRoom fired.
  split; [repeat (apply Forall_cons; split; [vm_compute; by left|]); constructor|].
  split; [vm_compute; reflexivity|].
  vm_compute. lia.
Qed.

(** ** Translation cache *)

Lemma cacheGet_changeLanguage (newLang : string) (s : ChatState) (messageId : Z) :
  cacheGet messageId (changeLanguage newLang s) = None.
Proof. unfold cacheGet, changeLanguage; simpl. apply lookup_empty. Qed.

Lemma handleManualTranslation_Some (messageId : Z) (text src tgt : string)
    (s : ChatState) (req : TranslationRequest) :
  handleManualTranslation messageId text src tgt s = Some req ->
  forall result s', translatedMessages (req_onComplete req result s') =
                    <[messageId := result]> (translatedMessages s').
Proof.
  unfold handleManualTranslation.
  destruct (findMessage messageId (roomMessages s)); [|done].
  intros [= <-] result s'. reflexivity.
Qed.

(** C7, as amended (language change and late results). A language change
    empties the translation cache: right after it every lookup is absent.
    The component keeps no generation: when the callback of a request that
    was issued before the change resolves afterwards, its text is written
    under its message id, and the lookup of that id returns it. *)
Theorem late_translation_is_written (s : ChatState) (messageId : Z)
    (text src tgt newLang result : string) (req : TranslationRequest) :
  handleManualTranslation messageId text src tgt s = Some req ->
  (forall id, cacheGet id (changeLanguage newLang s) = None) /\
  cacheGet messageId (req_onComplete req result (changeLanguage newLang s))
    = Some result /\
  (forall id, id <> messageId ->
     cacheGet id (req_onComplete req result (changeLanguage newLang s)) = None).
Proof.
  intros Hreq. split; [intros id; apply cacheGet_changeLanguage|].
  unfold cacheGet. split.
  - rewrite (handleManualTranslation_Some _ _ _ _ _ _ Hreq). apply lookup_insert_eq.
  - intros id Hne. rewrite (handleManualTranslation_Some _ _ _ _ _ _ Hreq).
    rewrite lookup_insert_ne by done. apply lookup_empty.
Qed.

Lemma late_translation_is_written_witness :
  let msg := mkMessage (Some 1) 1 "bob" "Bob" (Some "hello") (Some 100) in
  let s := mkChatState [msg] ∅ ∅ false false "es" in
  exists req,
    handleManualTranslation 1 "hello" "en" "es" s = Some req /\
    (forall id, cacheGet id (changeLanguage "fr" s) = None) /\
    cacheGet 1 (req_onComplete req "hola" (changeLanguage "fr" s)) = Some "hola" /\
    (forall id, id <> 1 ->
       cacheGet id (req_onComplete req "hola" (changeLanguage "fr" s)) = None).
Proof.
  intros msg s. eexists. split; [reflexivity|].
  apply (late_translation_is_written s 1 "hello" "en" "es" "fr" "hola").
  reflexivity.
Defined.

(** C7, as stated, fails: a translation to Spanish is requested, the language
    changes to French, the callback resolves, and the lookup returns the
    Spanish text. *)
Lemma stale_translation_counterexample :
  let msg := mkMessage (Some 1) 1 "bob" "Bob" (Some "hello") (Some 100) in
  let s := mkChatState [msg] ∅ ∅ false false "es" in
  exists req,
    handleManualTranslation 1 "hello" "en" "es" s = Some req /\
    cacheGet 1 (changeLanguage "fr" s) = None /\
    cacheGet 1 (req_onComplete req "hola" (changeLanguage "fr" s)) <> None.
Proof.
  intros msg s. eexists. split; [reflexivity|]. split; [reflexivity|].
  vm_compute. discriminate.
Qed.

(** ** Viewport *)

Lemma length_pos_nonempty {A} (l : list A) :
  (0 <? Z.of_nat (length l)) = true <-> l <> [].
Proof.
  destruct l; simpl; split; done.
Qed.

(** C9, as amended (autoscroll policy). The autoscroll effect fires iff the
    user is not scrolling, the jump-to-latest flag is off and the view is not
    empty. A scroll event marks the user as scrolling and turns the flag on
    iff the position is not near the bottom and the view is not empty; on
    mount the flag is off; the timer only clears the scrolling mark. So while
    the user scrolls near the bottom neither the autoscroll nor the
    jump-to-latest affordance appears. Sending a message whose text is not
    blank (not made of white space only, in the sense of [trim]) schedules
    the scroll to the bottom, whatever the two flags are. *)
Theorem autoscroll_policy (s : ChatState) (scrollTop clientHeight scrollHeight : Z)
    (lang : string) (text : list N) (mentions : option (list string)) (room : Z)
    (replyingTo : option Message) :
  (autoScrollFires s = true <->
   isUserScrolling s = false /\ showScrollToBottom s = false /\ roomMessages s <> []) /\
  (jumpToLatestShown (handleScroll scrollTop clientHeight scrollHeight s) = true <->
   isNearBottom scrollTop clientHeight scrollHeight = false /\ roomMessages s <> []) /\
  isUserScrolling (handleScroll scrollTop clientHeight scrollHeight s) = true /\
  autoScrollFires (handleScroll scrollTop clientHeight scrollHeight s) = false /\
  jumpToLatestShown (initialState lang) = false /\
  jumpToLatestShown (userScrollTimeout s) = jumpToLatestShown s /\
  isUserScrolling (userScrollTimeout s) = false /\
  jumpToLatestShown (scrollToBottom s) = false /\
  (ScheduleScrollToBottom ∈ handleSendMessage text mentions room replyingTo <->
   Trim.trim text <> []).
Proof.
  unfold autoScrollFires, jumpToLatestShown, handleScroll; simpl.
  split.
  { rewrite !andb_true_iff, !negb_true_iff, length_pos_nonempty. tauto. }
  split.
  { rewrite andb_true_iff, negb_true_iff, length_pos_nonempty. tauto. }
  do 6 (split; [reflexivity|]).
  unfold handleSendMessage.
  destruct (Trim.trim text) as [|c trimmed]; split.
  - by intros ?%elem_of_nil.
  - done.
  - done.
  - intros _. right. right. by left.
Qed.

(** C9, as stated, fails: after a scroll event near the bottom the user
    counts as scrolling, so the arrival of a message does not autoscroll, and
    the jump-to-latest affordance is not shown either. *)
Lemma autoscroll_counterexample :
  let msg := mkMessage (Some 1) 1 "bob" "Bob" (Some "hello") (Some 100) in
  let s := handleScroll 900 100 1000 (mkChatState [msg] ∅ ∅ false false "ja") in
  isUserScrolling s = true /\
  isNearBottom 900 100 1000 = true /\
  autoScrollFires s = false /\
  jumpToLatestShown s = false.
Proof. intros msg s. repeat split. Qed.

(** ** Profile image upload *)

(** C10 (upload validation). For a selected file whose type does not start
    with [image/] or whose size exceeds 1,048,576 bytes, the handler shows
    one toast and returns: the read of the file is not started, and whatever
    the browser does afterwards no profile-image mutation is invoked. *)
Theorem invalid_file_no_upload (file : ProfileImageUpload.File)
    (rest : list ProfileImageUpload.File) (readResult : option string)
    (decode : ProfileImageUpload.DecodeOutcome) :
  String.prefix "image/" (ProfileImageUpload.file_type file) = false \/
  1048576 < ProfileImageUpload.file_size file ->
  ProfileImageUpload.mutations
    (ProfileImageUpload.uploadTrace (file :: rest) readResult decode) = [] /\
  (ProfileImageUpload.handleFileUpload (file :: rest)).2 = None /\
  exists title description,
    ProfileImageUpload.uploadTrace (file :: rest) readResult decode =
      [ProfileImageUpload.Toast title description].
Proof.
  intros Hbad.
  unfold ProfileImageUpload.uploadTrace, ProfileImageUpload.handleFileUpload.
  destruct (String.prefix "image/" (ProfileImageUpload.file_type file)) eqn:Hp; simpl.
  - destruct Hbad as [?|Hsize]; [done|].
    change (1 * 1024 * 1024) with 1048576.
    apply Z.ltb_lt in Hsize. rewrite Hsize. simpl. eauto.
  - eauto.
Qed.

Lemma invalid_file_no_upload_witness :
  let file := ProfileImageUpload.mkFile "image/png" 2000000 in
  (String.prefix "image/" (ProfileImageUpload.file_type file) = false \/
   1048576 < ProfileImageUpload.file_size file) /\
  ProfileImageUpload.mutations
    (ProfileImageUpload.uploadTrace [file] (Some "data:image/png;base64,AAAA")
       (ProfileImageUpload.DecodeOk "data:image/jpeg;base64,BBBB")) = [] /\
  (ProfileImageUpload.handleFileUpload [file]).2 = None /\
  exists title description,
    ProfileImageUpload.uploadTrace [file] (Some "data:image/png;base64,AAAA")
       (ProfileImageUpload.DecodeOk "data:image/jpeg;base64,BBBB") =
      [ProfileImageUpload.Toast title description].
Proof.
  intros file.
  assert (Hbad : String.prefix "image/" (ProfileImageUpload.file_type file) = false \/
                 1048576 < ProfileImageUpload.file_size file) by (right; reflexivity).
  split; [exact Hbad|].
  exact (invalid_file_no_upload file [] _ _ Hbad).
Defined.

(** A valid file does reach the mutation once the image has decoded. *)
Example valid_file_uploads :
  ProfileImageUpload.mutations
    (ProfileImageUpload.uploadTrace [ProfileImageUpload.mkFile "image/png" 1048576]
       (Some "data:image/png;base64,AAAA")
       (ProfileImageUpload.DecodeOk "data:image/jpeg;base64,BBBB"))
  = [("data:image/jpeg;base64,BBBB", true)].
Proof. reflexivity. Qed.

(** * Further properties of the code *)

(** ** More on the sort *)

Section SortMore.
Context {A : Type}.
Variable cmp : A -> A -> Z.

Lemma insert_sorted_all_le (x : A) (l : list A) :
  Forall (fun y => cmp y x <= 0) l -> insert_sorted cmp x l = l ++ [x].
Proof.
  induction 1 as [|y l Hy _ IH]; simpl; [done|].
  destruct (Z.ltb_spec 0 (cmp y x)); [lia|]. by rewrite IH.
Qed.

Lemma sortBy_acc_sorted (l acc : list A) :
  StronglySorted (fun a b => cmp a b <= 0) (acc ++ l) ->
  fold_left (fun acc x => insert_sorted cmp x acc) l acc = acc ++ l.
Proof.
  revert acc. induction l as [|x l IH]; intros acc Hs; simpl.
  - by rewrite app_nil_r.
  - rewrite insert_sorted_all_le.
    + rewrite IH; rewrite <- app_assoc; done.
    + apply Forall_forall. intros y Hy.
      apply (StronglySorted_app_1_elem_of (fun a b => cmp a b <= 0)
               acc (x :: l) y x); [done|done|by left].
Qed.

(** Sorting a list that is in order returns it unchanged. *)
Lemma sortBy_sorted (l : list A) :
  StronglySorted (fun a b => cmp a b <= 0) l -> sortBy cmp l = l.
Proof. intros Hs. unfold sortBy. by rewrite sortBy_acc_sorted. Qed.

Hypothesis cmp_asym : forall x y, 0 < cmp y x -> cmp x y <= 0.
Hypothesis cmp_trans : forall x y z, cmp x y <= 0 -> cmp y z <= 0 -> cmp x z <= 0.

Lemma insert_sorted_all_gt (x : A) (l : list A) :
  Forall (fun y => 0 < cmp y x) l -> insert_sorted cmp x l = x :: l.
Proof.
  destruct 1 as [|y l Hy _]; simpl; [done|].
  destruct (Z.ltb_spec 0 (cmp y x)); [done|lia].
Qed.

Lemma filter_insert_sorted (P : A -> Prop) `{!forall a, Decision (P a)}
    (x : A) (l : list A) :
  StronglySorted (fun a b => cmp a b <= 0) l ->
  filter P (insert_sorted cmp x l) =
    if decide (P x) then insert_sorted cmp x (filter P l) else filter P l.
Proof.
  induction 1 as [|y l Hl IH Hy]; simpl.
  - rewrite filter_cons, filter_nil. by destruct (decide (P x)).
  - destruct (Z.ltb_spec 0 (cmp y x)) as [Hgt|Hle].
    + rewrite filter_cons. destruct (decide (P x)) as [Hx|Hx]; [|done].
      rewrite insert_sorted_all_gt; [done|].
      apply Forall_forall. intros z Hz.
      apply list_elem_of_filter in Hz as [_ Hz].
      apply elem_of_cons in Hz as [->|Hz]; [done|].
      rewrite Forall_forall in Hy. specialize (Hy z Hz).
      destruct (Z.ltb_spec 0 (cmp z x)) as [|Hzx]; [done|].
      specialize (cmp_trans y z x Hy Hzx). lia.
    + rewrite (filter_cons _ y (insert_sorted cmp x l)), IH.
      rewrite (filter_cons _ y l).
      destruct (decide (P y)) as [Hpy|Hpy]; [|done].
      destruct (decide (P x)); [|done]. simpl.
      by destruct (Z.ltb_spec 0 (cmp y x)); [lia|].
Qed.

Lemma filter_sortBy_acc (P : A -> Prop) `{!forall a, Decision (P a)}
    (l acc : list A) :
  StronglySorted (fun a b => cmp a b <= 0) acc ->
  filter P (fold_left (fun acc x => insert_sorted cmp x acc) l acc) =
  fold_left (fun acc x => insert_sorted cmp x acc) (filter P l) (filter P acc).
Proof.
  revert acc. induction l as [|x l IH]; intros acc Hacc; simpl; [done|].
  rewrite IH by (by apply insert_sorted_StronglySorted).
  rewrite filter_insert_sorted by done. rewrite filter_cons.
  by destruct (decide (P x)).
Qed.

(** Filtering commutes with the sort: what the sort does to the kept
    elements does not depend on the dropped ones. *)
Lemma filter_sortBy (P : A -> Prop) `{!forall a, Decision (P a)} (l : list A) :
  filter P (sortBy cmp l) = sortBy cmp (filter P l).
Proof. unfold sortBy. rewrite filter_sortBy_acc; [done|constructor]. Qed.

End SortMore.

(** ** More on the merge *)

Section MergeMore.
Import JsMap JsMapFacts.
Variable T : gset Z.

Lemma elem_of_addMessages k v msgs m0 :
  (k, v) ∈ addMessages T msgs m0 -> (k, v) ∈ m0 \/ v ∈ msgs.
Proof.
  revert m0. induction msgs as [|x msgs IH]; intros m0 Hin; simpl in *; [by left|].
  apply IH in Hin as [Hin|Hin]; [|right; by right].
  unfold addMessage in Hin. destruct (msg_id x) as [i|]; [|by left].
  destruct (negb (i =? 0) && negb (bool_decide (i ∈ T))); [|by left].
  apply elem_of_set in Hin as [[_ ->]|Hin]; [right; by left|by left].
Qed.

Lemma reconcile_from_inputs m H L :
  m ∈ reconcile H L T -> m ∈ H \/ m ∈ L.
Proof.
  intros [k Hin]%elem_of_reconcile. unfold messageMapOf in Hin.
  apply elem_of_addMessages in Hin as [Hin|Hin]; [|by right].
  apply elem_of_addMessages in Hin as [Hin|Hin]; [|by left].
  by apply elem_of_nil in Hin.
Qed.

Lemma lastWithId_is_Some i msgs m :
  m ∈ msgs -> msg_id m = Some i -> is_Some (lastWithId i msgs).
Proof.
  intros Hin Hid. unfold lastWithId. apply last_is_Some.
  intros Hnil.
  assert (Hm : m ∈ filter (fun m => msg_id m = Some i) msgs)
    by (by apply list_elem_of_filter).
  rewrite Hnil in Hm. by apply elem_of_nil in Hm.
Qed.

Lemma lastWithId_None i msgs :
  (forall m, m ∈ msgs -> msg_id m <> Some i) -> lastWithId i msgs = None.
Proof.
  intros Hno. unfold lastWithId. apply last_None.
  destruct (filter (fun m => msg_id m = Some i) msgs) as [|x l] eqn:E; [done|].
  assert (Hx : x ∈ filter (fun m => msg_id m = Some i) msgs) by (rewrite E; by left).
  apply list_elem_of_filter in Hx as [Hid Hin]. by destruct (Hno x Hin).
Qed.

Lemma lastWithId_elem i msgs v :
  lastWithId i msgs = Some v -> v ∈ msgs /\ msg_id v = Some i.
Proof.
  unfold lastWithId. intros Hl. apply last_Some_elem_of in Hl.
  apply list_elem_of_filter in Hl. tauto.
Qed.

Lemma get_messageMapOf i H L :
  i <> 0 -> i ∉ T ->
  get i (messageMapOf H L T) =
    match lastWithId i L with
    | Some v => Some v
    | None => lastWithId i H
    end.
Proof.
  intros Hi0 HiT. unfold messageMapOf. rewrite !get_addMessages by done.
  simpl. by destruct (lastWithId i L), (lastWithId i H).
Qed.

Lemma set_fresh k v m : k ∉ keys m -> set k v m = m ++ [(k, v)].
Proof.
  induction m as [|[k' v'] m IH]; simpl; [done|]. intros Hk.
  unfold keys in Hk; simpl in Hk. apply not_elem_of_cons in Hk as [Hne Hk].
  destruct (Z.eqb_spec k k'); [done|]. by rewrite IH.
Qed.

Lemma values_addMessages_fresh msgs m0 :
  Forall (admissible T) msgs -> NoDup (viewIds msgs) ->
  (forall i, i ∈ viewIds msgs -> i ∉ keys m0) ->
  values (addMessages T msgs m0) = values m0 ++ msgs.
Proof.
  revert m0. induction msgs as [|x msgs IH]; intros m0 Hadm Hnd Hfresh; simpl.
  - by rewrite app_nil_r.
  - apply Forall_cons in Hadm as [(i & Hid & Hi0 & HiT) Hadm].
    unfold viewIds in Hnd, Hfresh; simpl in Hnd, Hfresh. rewrite Hid in Hnd, Hfresh.
    simpl in Hnd, Hfresh. apply NoDup_cons in Hnd as [Hix Hnd].
    assert (Hadd : addMessage T m0 x = m0 ++ [(i, x)]).
    { unfold addMessage. rewrite Hid.
      destruct (Z.eqb_spec i 0); [done|]. simpl.
      rewrite bool_decide_eq_false_2 by done. simpl.
      apply set_fresh. apply Hfresh. by left. }
    rewrite Hadd, IH; [|done|done|].
    + unfold values. rewrite map_app. simpl. by rewrite <- app_assoc.
    + intros j Hj. unfold keys. rewrite map_app. simpl.
      intros [Hin|Hin]%elem_of_app.
      * apply (Hfresh j); [by right|done].
      * apply list_elem_of_singleton in Hin. by subst.
Qed.

Lemma filter_key_set_eq i v m :
  filter (fun kv : Z * Message => kv.1 <> i) (set i v m) =
  filter (fun kv : Z * Message => kv.1 <> i) m.
Proof.
  induction m as [|[k' v'] m IH]; simpl.
  - by rewrite filter_cons_False by (simpl; tauto).
  - destruct (Z.eqb_spec i k') as [->|Hne].
    + rewrite !filter_cons_False by (simpl; tauto). done.
    + rewrite !(filter_cons _ (k', v')), IH. done.
Qed.

Lemma filter_key_set_ne i j v m :
  j <> i ->
  filter (fun kv : Z * Message => kv.1 <> i) (set j v m) =
  set j v (filter (fun kv : Z * Message => kv.1 <> i) m).
Proof.
  intros Hji. induction m as [|[k' v'] m IH]; simpl.
  - by rewrite filter_cons_True.
  - destruct (Z.eqb_spec j k') as [->|Hne].
    + rewrite !filter_cons_True by done. simpl. by rewrite Z.eqb_refl.
    + rewrite !(filter_cons _ (k', v')), IH.
      destruct (decide ((k', v').1 <> i)); [|done].
      simpl. by destruct (Z.eqb_spec j k').
Qed.

Lemma filter_key_addMessage i m msg :
  filter (fun kv : Z * Message => kv.1 <> i) (addMessage T m msg) =
  addMessage ({[i]} ∪ T) (filter (fun kv : Z * Message => kv.1 <> i) m) msg.
Proof.
  unfold addMessage. destruct (msg_id msg) as [j|]; [|done].
  destruct (Z.eqb_spec j 0) as [|Hj0]; simpl; [done|].
  destruct (decide (j = i)) as [->|Hji].
  - rewrite (bool_decide_eq_true_2 (i ∈ {[i]} ∪ T)) by set_solver. simpl.
    destruct (bool_decide (i ∈ T)); simpl; [done|]. apply filter_key_set_eq.
  - destruct (bool_decide_reflect (j ∈ T)) as [HjT|HjT]; simpl.
    + by rewrite (bool_decide_eq_true_2 (j ∈ {[i]} ∪ T)) by set_solver.
    + rewrite (bool_decide_eq_false_2 (j ∈ {[i]} ∪ T))
        by (intros [?%elem_of_singleton|?]%elem_of_union; done).
      simpl.
      by apply filter_key_set_ne.
Qed.

Lemma filter_key_addMessages i msgs m :
  filter (fun kv : Z * Message => kv.1 <> i) (addMessages T msgs m) =
  addMessages ({[i]} ∪ T) msgs (filter (fun kv : Z * Message => kv.1 <> i) m).
Proof.
  revert m. induction msgs as [|x msgs IH]; intros m; simpl; [done|].
  by rewrite IH, filter_key_addMessage.
Qed.

Lemma values_filter_key i m :
  (forall k v, (k, v) ∈ m -> msg_id v = Some k) ->
  values (filter (fun kv : Z * Message => kv.1 <> i) m) =
  filter (fun v => msg_id v <> Some i) (values m).
Proof.
  induction m as [|[k v] m IH]; intros Hid; [done|].
  assert (Hv : msg_id v = Some k) by (apply Hid; by left).
  assert (Hid' : forall k v, (k, v) ∈ m -> msg_id v = Some k)
    by (intros; apply Hid; by right).
  unfold values in *. simpl. rewrite !filter_cons. simpl.
  destruct (decide (k <> i)) as [Hk|Hk].
  - rewrite decide_True by (rewrite Hv; congruence). simpl. by rewrite IH.
  - rewrite decide_False by (rewrite Hv; intros Hc; apply Hk; congruence).
    by apply IH.
Qed.

Lemma tombstone_supremacy_aux m i H L :
  m ∈ reconcile H L T -> msg_id m = Some i -> i ∈ T -> False.
Proof.
  intros Hin Hid HiT. apply reconcile_id in Hin as (j & Hj & _ & HjT). congruence.
Qed.

End MergeMore.

(** X1 (provenance). Every message of the merged view is one of the fetched
    historical messages or a WebSocket message of the current room, and its
    id is present, not 0 and not deleted: the merge invents nothing and a
    live message of another room never enters the view by that route. *)
Theorem merged_from_inputs (initial : option (list Message)) (all : list Message)
    (room : Z) (T : gset Z) (m : Message) :
  m ∈ mergedMessages initial all room T ->
  (m ∈ dbMessagesOf initial \/ (m ∈ all /\ msg_roomId m = room)) /\
  admissible T m.
Proof.
  intros Hin. split.
  - apply reconcile_from_inputs in Hin as [Hin|Hin]; [by left|right].
    unfold wsMessagesOf in Hin. apply list_elem_of_filter in Hin. tauto.
  - by apply reconcile_id in Hin.
Qed.

Lemma merged_from_inputs_witness :
  let mine := mkMessage (Some 1) 1 "bob" "Bob" (Some "here") (Some 100) in
  let other := mkMessage (Some 2) 2 "bob" "Bob" (Some "elsewhere") (Some 50) in
  mine ∈ mergedMessages None [other; mine] 1 ∅ /\
  (mine ∈ dbMessagesOf None \/ (mine ∈ [other; mine] /\ msg_roomId mine = 1)) /\
  admissible ∅ mine.
Proof.
  intros mine other.
  assert (Hin : mine ∈ mergedMessages None [other; mine] 1 ∅)
    by (vm_compute; by left).
  split; [exact Hin|].
  exact (merged_from_inputs None [other; mine] 1 ∅ mine Hin).
Defined.

(** X2 (the ids of the view). The ids of the reconciled output are exactly
    the ids that are not 0, not deleted and carried by some historical or
    live message, and no id occurs twice. *)
Theorem reconcile_ids (H L : list Message) (T : gset Z) (i : Z) :
  (i ∈ viewIds (reconcile H L T) <->
   i <> 0 /\ (i ∉ T) /\ exists m, m ∈ H ++ L /\ msg_id m = Some i) /\
  NoDup (viewIds (reconcile H L T)).
Proof.
  split; [|apply NoDup_viewIds_reconcile].
  unfold viewIds. rewrite list_elem_of_omap. split.
  - intros (m & Hin & Hid).
    destruct (reconcile_id T m H L Hin) as (j & Hj & Hj0 & HjT).
    assert (j = i) by congruence. subst j. split; [done|]. split; [done|].
    exists m. split; [|done]. apply elem_of_app.
    by apply reconcile_from_inputs in Hin.
  - intros (Hi0 & HiT & m & Hin & Hid).
    assert (Hg : is_Some (JsMap.get i (messageMapOf H L T))).
    { rewrite get_messageMapOf by done.
      apply elem_of_app in Hin as [Hin|Hin].
      - destruct (lastWithId i L); [done|]. by eapply lastWithId_is_Some.
      - destruct (lastWithId_is_Some i L m Hin Hid) as [v ->]. done. }
    destruct Hg as [v Hv].
    assert (Hf : v ∈ filter (fun m => msg_id m = Some i) (reconcile H L T)).
    { rewrite filter_reconcile, Hv. by left. }
    apply list_elem_of_filter in Hf as [Hvid Hvin]. eauto.
Qed.

(** X3 (history survives). A historical message whose id is valid and not
    carried by any live message stays in the output: the output holds
    exactly one message with that id, the last historical one. *)
Theorem history_only_kept (H L : list Message) (T : gset Z) (i : Z) (v : Message) :
  i <> 0 -> i ∉ T ->
  (forall l, l ∈ L -> msg_id l <> Some i) ->
  lastWithId i H = Some v ->
  filter (fun m => msg_id m = Some i) (reconcile H L T) = [v].
Proof.
  intros Hi0 HiT HL Hv.
  rewrite filter_reconcile, get_messageMapOf by done.
  by rewrite (lastWithId_None i L HL), Hv.
Qed.

Lemma history_only_kept_witness :
  let old := mkMessage (Some 3) 1 "bob" "Bob" (Some "first") (Some 10) in
  let newer := mkMessage (Some 3) 1 "bob" "Bob" (Some "refetched") (Some 10) in
  let live := mkMessage (Some 4) 1 "eve" "Eve" (Some "now") (Some 20) in
  filter (fun m => msg_id m = Some 3) (reconcile [old; newer] [live] ∅) = [newer].
Proof.
  intros old newer live.
  apply (history_only_kept [old; newer] [live] ∅ 3 newer).
  - lia.
  - apply not_elem_of_empty.
  - intros l Hl. apply list_elem_of_singleton in Hl. subst l. discriminate.
  - reflexivity.
Defined.

(** X4 (the view is a fixed point). Feeding the reconciled output back as
    the historical list, with no live message and the same tombstones,
    returns it unchanged, order included. *)
Theorem reconcile_fixed_point (H L : list Message) (T : gset Z) :
  reconcile (reconcile H L T) [] T = reconcile H L T.
Proof.
  set (out := reconcile H L T).
  unfold reconcile at 1. unfold messageMapOf. simpl.
  rewrite (values_addMessages_fresh T out []).
  - simpl. apply sortBy_sorted. unfold out, reconcile.
    apply sortBy_StronglySorted; [apply mergeCmp_asym|apply mergeCmp_trans].
  - apply Forall_forall. intros m Hm. by apply reconcile_id in Hm.
  - apply NoDup_viewIds_reconcile.
  - intros i _ Hi. by apply elem_of_nil in Hi.
Qed.

(** X5 (a deletion removes one message). Adding an id to the tombstone set
    removes the message with that id from the output and changes nothing
    else: the other messages stay, in the same order. *)
Theorem tombstone_removes_exactly (H L : list Message) (T : gset Z) (i : Z) :
  reconcile H L ({[i]} ∪ T) =
  filter (fun m => msg_id m <> Some i) (reconcile H L T).
Proof.
  unfold reconcile.
  rewrite filter_sortBy by (apply mergeCmp_asym || apply mergeCmp_trans).
  f_equal.
  rewrite <- (values_filter_key i (messageMapOf H L T)).
  - f_equal. unfold messageMapOf. by rewrite !filter_key_addMessages.
  - intros k v Hin. by apply (mapInv_messageMapOf T H L).
Qed.

(** ** More on mentions *)

Lemma filter_iff_in {A} (P1 P2 : A -> Prop)
    `{!forall x, Decision (P1 x), !forall x, Decision (P2 x)} (l : list A) :
  (forall x, x ∈ l -> P1 x <-> P2 x) -> filter P1 l = filter P2 l.
Proof.
  induction l as [|a l IH]; intros Hiff; [done|].
  rewrite !filter_cons, IH by (intros x Hx; apply Hiff; by right).
  destruct (decide (P1 a)) as [H1|H1], (decide (P2 a)) as [H2|H2]; try done.
  - destruct H2. apply (Hiff a); [by left|done].
  - destruct H1. apply (Hiff a); [by left|done].
Qed.

Section MentionMore.
Variable getDisplayName : User -> string.
Variable newRegExp : string -> option (string -> bool).

(** X6 (no new id, no notification). A run of the merge effect whose merged
    view holds no id outside the previous view fires no mention
    notification: a re-fetch, a deletion or a re-run with the same inputs
    never notifies again. *)
Theorem no_new_id_no_notification (inp : MergeInputs) (s : ChatState) :
  (forall i, i ∈ viewIds (mergedOf inp) -> i ∈ viewIds (roomMessages s)) ->
  (mergeEffect getDisplayName newRegExp inp s).2 = [].
Proof.
  intros Hsub.
  destruct (mergeEffect getDisplayName newRegExp inp s).2 as [|j l] eqn:E; [done|].
  assert (Hj : j ∈ (mergeEffect getDisplayName newRegExp inp s).2)
    by (rewrite E; by left).
  apply fired_spec in Hj as (_ & m & Hin & Hid & Hnew & _).
  destruct Hnew. apply Hsub. apply list_elem_of_omap. eauto.
Qed.

(** X7 (first load). When the previous view is empty, as on mount, and the
    mention pattern of the signed-in user compiles, the run fires one
    notification for every message of the merged view that is not from the
    current user and that the pattern matches, historical messages
    included, in the order of the view. *)
Theorem first_load_notifies_history (inp : MergeInputs) (s : ChatState) :
  roomMessages s = [] ->
  mentionPatternCompiles getDisplayName newRegExp (user inp) ->
  (mergeEffect getDisplayName newRegExp inp s).2 =
  viewIds (filter (fun m => isNotFromSelf (user inp) m = true /\
                            isUserMentioned getDisplayName newRegExp (user inp) m
                              = Some true)
             (mergedOf inp)).
Proof.
  intros Hs Hc.
  destruct (mergeOutcome_cases getDisplayName newRegExp inp s)
    as [(upd & E & _)|(_ & m & _ & Hm)].
  - rewrite (mergeEffect_Stored _ _ _ _ _ _ E). simpl. f_equal.
    apply filter_iff_in. intros m Hm. rewrite Hs. simpl.
    split; [tauto|]. intros [Hself Hmen]. split; [|done].
    apply isNewMessage_spec. apply reconcile_id in Hm as (i & Hi & Hi0 & _).
    exists i. split; [done|]. split; [done|]. apply not_elem_of_empty.
  - destruct (isUserMentioned_compiles getDisplayName newRegExp (user inp) m Hc)
      as [b Hb]. congruence.
Qed.

(** X8 (highlighted messages). After a run that completed, the set of
    highlighted ids is the earlier set together with the ids of the
    messages of the merged view that the mention pattern of the signed-in
    user matches, the user's own messages included; after a run that threw
    it is the earlier set. Nothing is ever removed from it. *)
Theorem highlight_after_pass (inp : MergeInputs) (s : ChatState) (i : Z) :
  i ∈ mentionedMessageIds (mergeEffect getDisplayName newRegExp inp s).1 <->
  i ∈ mentionedMessageIds s \/
  (exists next fired,
     mergeOutcome getDisplayName newRegExp inp s = Stored next fired) /\
  exists m,
    m ∈ mergedOf inp /\ msg_id m = Some i /\
    isUserMentioned getDisplayName newRegExp (user inp) m = Some true.
Proof.
  destruct (mergeOutcome getDisplayName newRegExp inp s) as [next fired|fired] eqn:E.
  - rewrite (mergeEffect_Stored _ _ _ _ _ _ E). simpl.
    destruct (Stored_inv _ _ _ _ _ _ E) as (_ & _ & _ & Hm & _). rewrite Hm.
    split; [intros [?|?]; [by left|right; split; eauto]|tauto].
  - rewrite (mergeEffect_Crashed _ _ _ _ _ E). simpl.
    split; [by left|]. by intros [?|[(? & ? & ?) _]].
Qed.

(** X9 (an at-mention is found). For a signed-in user with a plain display
    name, and a [RegExp] that reads the patterns of plain names as the
    literal text, a message whose text holds [@], then the display name in
    any letter case ending in a word character, then the end of the text or
    a character that is not a word character, is found to mention the user,
    whatever stands before the [@]. *)
Theorem at_mention_detected (u : User) (message : Message)
    (written pre post : string) :
  plainPatternsAsRead newRegExp ->
  Regex.isLiteral (getDisplayName u) = true ->
  Regex.isAscii (getDisplayName u) = true ->
  Regex.eqb_ci_string (getDisplayName u) written = true ->
  Regex.isWordChar (lastChar "@"%char written) = true ->
  startsWithWordChar post = false ->
  msg_originalText message =
    Some (String.append pre (String "@"%char (String.append written post))) ->
  isUserMentioned getDisplayName newRegExp (Some u) message = Some true.
Proof.
  intros Hre Hlit Hascii Hci Hlast Hpost Htext.
  destruct (Hre _ Hlit Hascii) as (re & Hcomp & Htest).
  assert (Hm : Regex.testMention (getDisplayName u)
                 (String.append pre (String "@"%char (String.append written post)))
               = true).
  { apply RegexFacts.testMention_spec.
    exists pre, (String "@"%char written), post. split; [done|]. split.
    - simpl. by rewrite Hci.
    - simpl. by rewrite Hlast, Hpost. }
  apply isUserMentioned_true. eexists u, _, re.
  split; [done|]. split; [exact Htext|]. split.
  - intros Hempty. rewrite Hempty in Hm.
    by rewrite RegexFacts.testMention_empty in Hm.
  - split; [done|]. by rewrite Htest.
Qed.

End MentionMore.

Lemma no_new_id_no_notification_witness :
  let alice := mkUser "alice-self-id" "Alice" "Liddell" "alice@example.com" in
  let msg := mkMessage (Some 7) 1 "bob" "Bob" (Some "hi @Alice") (Some 100) in
  let inp := mkMergeInputs None [msg] 1 ∅ (Some alice) in
  let s := (mergeEffect user_firstName Regex.literalRegExp inp (initialState "ja")).1 in
  (mergeEffect user_firstName Regex.literalRegExp inp (initialState "ja")).2 = [7] /\
  (mergeEffect user_firstName Regex.literalRegExp inp s).2 = [].
Proof.
  intros alice msg inp s. split; [vm_compute; reflexivity|].
  apply (no_new_id_no_notification user_firstName Regex.literalRegExp inp s).
  intros i Hi. exact Hi.
Defined.

Lemma literalRegExp_compiles (u : User) :
  Regex.isLiteral (user_firstName u) = true ->
  Regex.isAscii (user_firstName u) = true ->
  mentionPatternCompiles user_firstName Regex.literalRegExp (Some u).
Proof.
  intros Hlit Hascii u' [= <-].
  by destruct (literalRegExp_plain _ Hlit Hascii) as (re & -> & _).
Qed.

Lemma first_load_notifies_history_witness :
  let alice := mkUser "alice-self-id" "Alice" "Liddell" "alice@example.com" in
  let old := mkMessage (Some 7) 1 "bob" "Bob" (Some "hi @Alice") (Some 100) in
  let own := mkMessage (Some 8) 1 "alice-self-id" "Alice" (Some "I am @Alice") (Some 200) in
  let inp := mkMergeInputs (Some [old; own]) [] 1 ∅ (Some alice) in
  (mergeEffect user_firstName Regex.literalRegExp inp (initialState "ja")).2 =
  viewIds (filter (fun m => isNotFromSelf (user inp) m = true /\
                            isUserMentioned user_firstName Regex.literalRegExp
                              (user inp) m = Some true)
             (mergedOf inp)).
Proof.
  intros alice old own inp.
  apply (first_load_notifies_history user_firstName Regex.literalRegExp inp
           (initialState "ja")); [reflexivity|].
  apply literalRegExp_compiles; reflexivity.
Defined.

Lemma at_mention_detected_witness :
  let alice := mkUser "alice-self-id" "Alice" "Liddell" "alice@example.com" in
  let msg := mkMessage (Some 7) 1 "bob" "Bob" (Some "mail bob@ALICE, now") (Some 100) in
  isUserMentioned user_firstName Regex.literalRegExp (Some alice) msg = Some true.
Proof.
  intros alice msg.
  apply (at_mention_detected user_firstName Regex.literalRegExp alice msg
           "ALICE" "mail bob" ", now");
    [apply literalRegExp_plain|reflexivity..].
Defined.

(** ** The render filter and order *)

Lemma findIndexFrom_skip (pre l : list Message) (j : nat) (mid : option Z) :
  mid ∉ map msg_id pre ->
  findIndexFrom j mid (pre ++ l) = findIndexFrom (j + length pre)%nat mid l.
Proof.
  revert j. induction pre as [|x pre IH]; intros j Hno; simpl.
  - by rewrite Nat.add_0_r.
  - simpl in Hno. apply not_elem_of_cons in Hno as [Hx Hno].
    rewrite bool_decide_eq_false_2 by congruence.
    rewrite IH by done. f_equal. lia.
Qed.

Lemma findIndexFrom_early (pre l : list Message) (j : nat) (mid : option Z) :
  mid ∈ map msg_id pre ->
  exists k, findIndexFrom j mid (pre ++ l) = Some k /\ (k < j + length pre)%nat.
Proof.
  revert j. induction pre as [|x pre IH]; intros j Hin; simpl in *.
  - by apply elem_of_nil in Hin.
  - destruct (bool_decide_reflect (msg_id x = mid)) as [Hx|Hx].
    + exists j. split; [done|lia].
    + apply elem_of_cons in Hin as [Hin|Hin]; [congruence|].
      destruct (IH (Datatypes.S j) Hin) as (k & Hk & Hlt).
      exists k. split; [done|lia].
Qed.

Lemma keepFirstFrom_keepUnseen (rest pre : list Message) :
  keepFirstFrom (length pre) (pre ++ rest) rest = keepUnseen (map msg_id pre) rest.
Proof.
  revert pre. induction rest as [|m rest IH]; intros pre; [done|].
  cbn [keepFirstFrom keepUnseen].
  assert (Htail : keepFirstFrom (Datatypes.S (length pre)) (pre ++ m :: rest) rest =
                  keepUnseen (map msg_id pre ++ [msg_id m]) rest).
  { specialize (IH (pre ++ [m])).
    rewrite length_app, <- app_assoc, map_app in IH. simpl in IH.
    by rewrite Nat.add_1_r in IH. }
  rewrite Htail.
  destruct (bool_decide_reflect (msg_id m ∈ map msg_id pre)) as [Hin|Hno].
  - destruct (findIndexFrom_early pre (m :: rest) 0 (msg_id m) Hin) as (k & Hk & Hlt).
    rewrite Hk. rewrite bool_decide_eq_false_2; [done|].
    intros [= ->]. simpl in Hlt. lia.
  - rewrite findIndexFrom_skip by done. simpl.
    rewrite (bool_decide_eq_true_2 (msg_id m = msg_id m)) by done.
    by rewrite bool_decide_eq_true_2.
Qed.

Lemma keepFirst_keepUnseen (l : list Message) : keepFirst l = keepUnseen [] l.
Proof. apply (keepFirstFrom_keepUnseen l []). Qed.

Lemma keepUnseen_sublist (seen : list (option Z)) (rest : list Message) :
  sublist (keepUnseen seen rest) rest.
Proof.
  revert seen. induction rest as [|m rest IH]; intros seen; simpl; [constructor|].
  destruct (bool_decide (msg_id m ∈ seen)); [apply sublist_cons|apply sublist_skip]; apply IH.
Qed.

Lemma keepUnseen_NoDup (seen : list (option Z)) (rest : list Message) :
  NoDup (map msg_id (keepUnseen seen rest)) /\
  forall x, x ∈ map msg_id (keepUnseen seen rest) -> x ∉ seen.
Proof.
  revert seen. induction rest as [|m rest IH]; intros seen; simpl.
  - split; [constructor|]. by intros x ?%elem_of_nil.
  - destruct (IH (seen ++ [msg_id m])) as [Hnd Hout].
    assert (Hout' : forall x, x ∈ map msg_id (keepUnseen (seen ++ [msg_id m]) rest) ->
                              (x ∉ seen) /\ x <> msg_id m).
    { intros x Hx. specialize (Hout x Hx). split.
      - intros ?. apply Hout, elem_of_app. by left.
      - intros ->. apply Hout, elem_of_app. right. by left. }
    destruct (bool_decide_reflect (msg_id m ∈ seen)) as [Hin|Hno].
    + split; [done|]. intros x Hx. by apply Hout'.
    + simpl. split.
      * apply NoDup_cons. split; [|done]. intros Hx. by apply Hout' in Hx as [_ ?].
      * intros x [->|Hx]%elem_of_cons; [done|]. by apply Hout'.
Qed.

Lemma keepUnseen_covers (seen : list (option Z)) (rest : list Message) (m : Message) :
  m ∈ rest -> msg_id m ∈ seen \/ msg_id m ∈ map msg_id (keepUnseen seen rest).
Proof.
  revert seen. induction rest as [|x rest IH]; intros seen Hin; simpl.
  - by apply elem_of_nil in Hin.
  - assert (Hx : msg_id x ∈ seen \/
                 msg_id x ∈ map msg_id
                   (if bool_decide (msg_id x ∈ seen)
                    then keepUnseen (seen ++ [msg_id x]) rest
                    else x :: keepUnseen (seen ++ [msg_id x]) rest)).
    { destruct (bool_decide_reflect (msg_id x ∈ seen)); [by left|right]. by left. }
    apply elem_of_cons in Hin as [->|Hin]; [done|].
    destruct (IH (seen ++ [msg_id x]) Hin) as [Hs|Hk].
    + apply elem_of_app in Hs as [Hs|Hs]; [by left|].
      apply list_elem_of_singleton in Hs. by rewrite Hs.
    + right. destruct (bool_decide (msg_id x ∈ seen)); [done|]. by right.
Qed.

Lemma keepUnseen_distinct (seen : list (option Z)) (rest : list Message) :
  NoDup (seen ++ map msg_id rest) -> keepUnseen seen rest = rest.
Proof.
  revert seen. induction rest as [|m rest IH]; intros seen Hnd; simpl; [done|].
  simpl in Hnd.
  assert (Hno : msg_id m ∉ seen).
  { apply NoDup_app in Hnd as (_ & Hd & _). intros Hin.
    apply (Hd _ Hin). by left. }
  rewrite bool_decide_eq_false_2 by done. f_equal. apply IH.
  by rewrite <- app_assoc.
Qed.

Lemma keepUnseen_app (seen : list (option Z)) (l1 l2 : list Message) :
  keepUnseen seen (l1 ++ l2) =
  keepUnseen seen l1 ++ keepUnseen (seen ++ map msg_id l1) l2.
Proof.
  revert seen. induction l1 as [|m l1 IH]; intros seen; simpl.
  - by rewrite app_nil_r.
  - rewrite IH, <- app_assoc. simpl. by destruct (bool_decide (msg_id m ∈ seen)).
Qed.

Lemma NoDup_map_msg_id (T : gset Z) (l : list Message) :
  Forall (admissible T) l -> NoDup (viewIds l) -> NoDup (map msg_id l).
Proof.
  induction 1 as [|m l (i & Hid & _) _ IH]; intros Hnd; [constructor|].
  unfold viewIds in Hnd. simpl in *. rewrite Hid in *. simpl in Hnd.
  apply NoDup_cons in Hnd as [Hi Hnd]. apply NoDup_cons. split; [|by apply IH].
  intros Hin. apply Hi.
  apply list_elem_of_In, in_map_iff in Hin as (x & Hx & Hxl).
  apply list_elem_of_omap. exists x. split; [by apply list_elem_of_In|done].
Qed.

Lemma keepFirst_reconcile (H L : list Message) (T : gset Z) :
  keepFirst (reconcile H L T) = reconcile H L T.
Proof.
  rewrite keepFirst_keepUnseen. apply keepUnseen_distinct. simpl.
  apply (NoDup_map_msg_id T).
  - apply Forall_forall. intros m Hm. by apply reconcile_id in Hm.
  - apply NoDup_viewIds_reconcile.
Qed.

Lemma hasTranslation_empty (m : Message) : hasTranslation ∅ m = false.
Proof.
  unfold hasTranslation. destruct (msg_id m); [|done].
  apply bool_decide_eq_false_2. rewrite lookup_empty. by intros [? ?].
Qed.

Lemma renderCmp_empty (a b : Message) : renderCmp ∅ a b = mergeCmp a b.
Proof.
  unfold renderCmp, mergeCmp. rewrite !hasTranslation_empty. simpl.
  by destruct (Z.abs (timeOf a - timeOf b) <? 1000).
Qed.

(** X10 (the render filter). The filter keeps a sub-sequence of the view in
    which no id occurs twice; a message that has no earlier message with the
    same id is kept, so every id of the view still occurs, through its first
    message. *)
Theorem keepFirst_one_per_id (l : list Message) :
  sublist (keepFirst l) l /\
  NoDup (map msg_id (keepFirst l)) /\
  (forall pre m post,
     l = pre ++ m :: post -> msg_id m ∉ map msg_id pre -> m ∈ keepFirst l) /\
  (forall m, m ∈ l -> msg_id m ∈ map msg_id (keepFirst l)).
Proof.
  rewrite keepFirst_keepUnseen. split; [apply keepUnseen_sublist|].
  split; [apply keepUnseen_NoDup|]. split.
  - intros pre m post -> Hno. rewrite keepUnseen_app. simpl.
    rewrite bool_decide_eq_false_2 by done.
    apply elem_of_app. right. by left.
  - intros m Hm. destruct (keepUnseen_covers [] l m Hm) as [Hin|Hin]; [|done].
    by apply elem_of_nil in Hin.
Qed.

(** X11 (the render shows the merged view). A run of the merge effect
    completes whenever the mention pattern of the signed-in user compiles,
    and after a run that completed the rendered sequence is a rearrangement
    of the merged view: the render filter and sort drop no message and show
    none twice, whatever the translation cache holds. *)
Theorem rendered_is_merged_view (getDisplayName : User -> string)
    (newRegExp : string -> option (string -> bool))
    (inp : MergeInputs) (s : ChatState) :
  (mentionPatternCompiles getDisplayName newRegExp (user inp) ->
   exists next fired,
     mergeOutcome getDisplayName newRegExp inp s = Stored next fired) /\
  (forall next fired,
     mergeOutcome getDisplayName newRegExp inp s = Stored next fired ->
     renderedMessages next ≡ₚ mergedOf inp).
Proof.
  split; [apply mergeOutcome_completes|].
  intros next fired E. apply Stored_inv in E as (Hroom & _).
  unfold renderedMessages. rewrite sortBy_Permutation, Hroom.
  unfold mergedOf, mergedMessages. by rewrite keepFirst_reconcile.
Qed.

(** X12 (no translation, no reordering). With an empty translation cache,
    as it is on mount and right after a language change, a run of the merge
    effect completes whenever the mention pattern compiles, and the
    rendered sequence after a run that completed is the merged view itself,
    in the same order. *)
Theorem rendered_equals_merged_without_translations
    (getDisplayName : User -> string)
    (newRegExp : string -> option (string -> bool))
    (inp : MergeInputs) (s : ChatState) :
  translatedMessages s = ∅ ->
  (mentionPatternCompiles getDisplayName newRegExp (user inp) ->
   exists next fired,
     mergeOutcome getDisplayName newRegExp inp s = Stored next fired) /\
  (forall next fired,
     mergeOutcome getDisplayName newRegExp inp s = Stored next fired ->
     renderedMessages next = mergedOf inp).
Proof.
  intros Hs. split; [apply mergeOutcome_completes|].
  intros next fired E. apply Stored_inv in E as (Hroom & Htr & _).
  unfold renderedMessages. rewrite Hroom, Htr, Hs.
  unfold mergedOf, mergedMessages. rewrite keepFirst_reconcile.
  apply sortBy_sorted.
  eapply StronglySorted_impl; [|apply reconcile_sorted].
  intros a b Hab. rewrite renderCmp_empty. unfold mergeCmp. simpl in Hab. lia.
Qed.

Lemma rendered_equals_merged_without_translations_witness :
  let a := mkMessage (Some 1) 1 "bob" "Bob" (Some "a") (Some 500) in
  let b := mkMessage (Some 2) 1 "bob" "Bob" (Some "b") (Some 0) in
  let inp := mkMergeInputs (Some [a; b]) [] 1 ∅ None in
  let s := changeLanguage "fr" (mkChatState [] {[1 := "old"]} ∅ false false "ja") in
  mergeOutcome user_firstName Regex.literalRegExp inp s =
    Stored (mkChatState [b; a] ∅ ∅ false false "fr") [] /\
  renderedMessages (mkChatState [b; a] ∅ ∅ false false "fr") = mergedOf inp.
Proof.
  intros a b inp s.
  assert (E : mergeOutcome user_firstName Regex.literalRegExp inp s =
              Stored (mkChatState [b; a] ∅ ∅ false false "fr") [])
    by (vm_compute; reflexivity).
  split; [exact E|].
  exact (proj2 (rendered_equals_merged_without_translations user_firstName
                  Regex.literalRegExp inp s eq_refl) _ _ E).
Defined.

(** ** More on the viewport *)

(** X13 (after the quiet period). Once the two-second timer has fired after
    a scroll event, and as long as the view is not empty, exactly one of the
    two holds: the autoscroll effect fires (the scroll ended near the
    bottom) or the jump-to-latest button is shown (it ended elsewhere). *)
Theorem autoscroll_or_button_after_quiet (s : ChatState)
    (scrollTop clientHeight scrollHeight : Z) :
  roomMessages s <> [] ->
  let s' := userScrollTimeout (handleScroll scrollTop clientHeight scrollHeight s) in
  autoScrollFires s' = isNearBottom scrollTop clientHeight scrollHeight /\
  jumpToLatestShown s' = negb (isNearBottom scrollTop clientHeight scrollHeight).
Proof.
  intros Hne. apply length_pos_nonempty in Hne.
  unfold autoScrollFires, jumpToLatestShown, userScrollTimeout, handleScroll; simpl.
  rewrite Hne. by destruct (isNearBottom scrollTop clientHeight scrollHeight).
Qed.

Lemma autoscroll_or_button_after_quiet_witness :
  let msg := mkMessage (Some 1) 1 "bob" "Bob" (Some "hello") (Some 100) in
  let s := mkChatState [msg] ∅ ∅ false false "ja" in
  let s' := userScrollTimeout (handleScroll 200 100 1000 s) in
  autoScrollFires s' = isNearBottom 200 100 1000 /\
  jumpToLatestShown s' = negb (isNearBottom 200 100 1000).
Proof.
  intros msg s.
  apply (autoscroll_or_button_after_quiet s 200 100 1000). discriminate.
Defined.

(** X14 (short conversations). While the content is at most 100 pixels
    taller than the viewport, no scroll position shows the jump-to-latest
    button. *)
Theorem short_content_never_shows_button (s : ChatState)
    (scrollTop clientHeight scrollHeight : Z) :
  0 <= scrollTop -> scrollHeight <= clientHeight + 100 ->
  jumpToLatestShown (handleScroll scrollTop clientHeight scrollHeight s) = false.
Proof.
  intros Htop Hshort. unfold jumpToLatestShown, handleScroll, isNearBottom; simpl.
  destruct (Z.leb_spec (scrollHeight - 100) (scrollTop + clientHeight)); [done|lia].
Qed.

Lemma short_content_never_shows_button_witness :
  let msg := mkMessage (Some 1) 1 "bob" "Bob" (Some "hello") (Some 100) in
  jumpToLatestShown (handleScroll 0 600 650 (mkChatState [msg] ∅ ∅ false false "ja"))
    = false.
Proof.
  intros msg. apply short_content_never_shows_button; lia.
Defined.

(** ** Sending *)

Module TrimFacts.
Import Trim.

Lemma trimStart_split (s : list N) :
  exists pre, s = pre ++ trimStart s /\ forallb isWhite pre = true.
Proof.
  induction s as [|c s (pre & Hs & Hpre)]; simpl.
  - by exists [].
  - destruct (isWhite c) eqn:Hc.
    + exists (c :: pre). split; [exact (f_equal (cons c) Hs)|].
      cbn [forallb]. by rewrite Hc, Hpre.
    + by exists [].
Qed.

Lemma trimStart_head (s : list N) :
  match trimStart s with
  | [] => True
  | c :: _ => isWhite c = false
  end.
Proof.
  induction s as [|c s IH]; simpl; [done|].
  destruct (isWhite c) eqn:Hc; [done|]. by simpl.
Qed.

Lemma trimEnd_split (s : list N) :
  exists post, s = trimEnd s ++ post /\ forallb isWhite post = true.
Proof.
  induction s as [|c s (post & Hs & Hpost)]; simpl.
  - by exists [].
  - destruct (trimEnd s) as [|d t] eqn:Ht.
    + destruct (isWhite c) eqn:Hc.
      * exists (c :: post). split; [exact (f_equal (cons c) Hs)|].
        cbn [forallb]. by rewrite Hc, Hpost.
      * exists post. split; [exact (f_equal (cons c) Hs)|done].
    + exists post. split; [exact (f_equal (cons c) Hs)|done].
Qed.

Lemma trimEnd_last (s : list N) :
  match last (trimEnd s) with
  | None => trimEnd s = []
  | Some c => isWhite c = false
  end.
Proof.
  induction s as [|c s IH]; cbn [trimEnd]; [done|].
  destruct (trimEnd s) as [|e t] eqn:Ht.
  - destruct (isWhite c) eqn:Hc; [done|exact Hc].
  - rewrite last_cons_cons. by destruct (last (e :: t)).
Qed.

Lemma trimEnd_head (c : N) (s : list N) :
  isWhite c = false -> exists t, trimEnd (c :: s) = c :: t.
Proof.
  intros Hc. simpl. destruct (trimEnd s); [|eauto]. rewrite Hc. eauto.
Qed.

Lemma trimEnd_idem (s : list N) : trimEnd (trimEnd s) = trimEnd s.
Proof.
  induction s as [|c s IH]; simpl; [done|].
  destruct (trimEnd s) as [|e t] eqn:Ht.
  - destruct (isWhite c) eqn:Hc; simpl; [done|]. by rewrite Hc.
  - cbn [trimEnd] in *. by rewrite IH.
Qed.

Lemma trim_head (s : list N) :
  match trim s with
  | [] => True
  | c :: _ => isWhite c = false
  end.
Proof.
  unfold trim. pose proof (trimStart_head s) as Hh.
  destruct (trimStart s) as [|c u]; [done|].
  destruct (trimEnd_head c u Hh) as [t ->]. done.
Qed.

Lemma trimStart_id (s : list N) :
  match s with
  | [] => True
  | c :: _ => isWhite c = false
  end -> trimStart s = s.
Proof. destruct s as [|c s]; simpl; [done|]. by intros ->. Qed.

End TrimFacts.

(** X15 (what is sent). [handleSendMessage] either does nothing at all,
    when the text is blank, or sends exactly one message, clears the reply
    and schedules the scroll. The text sent is the input without the white
    space around it, white space being what [trim] removes (the Unicode
    spaces and line terminators included): it is not empty, it neither
    starts nor ends with white space, and the input is that text between
    two runs of white space. *)
Theorem sent_text_is_trimmed (text : list N) (mentions : option (list string))
    (room : Z) (replyingTo : option Message) :
  (Trim.trim text = [] /\ handleSendMessage text mentions room replyingTo = []) \/
  (exists c rest d pre post,
     Trim.trim text = c :: rest /\
     Trim.isWhite c = false /\
     last (c :: rest) = Some d /\ Trim.isWhite d = false /\
     text = pre ++ Trim.trim text ++ post /\
     forallb Trim.isWhite pre = true /\
     forallb Trim.isWhite post = true /\
     handleSendMessage text mentions room replyingTo =
       [SendMessage (Trim.trim text) room replyingTo mentions;
        ClearReply; ScheduleScrollToBottom]).
Proof.
  unfold handleSendMessage.
  pose proof (TrimFacts.trim_head text) as Hhead.
  destruct (TrimFacts.trimStart_split text) as (pre & Hpre & Hwpre).
  destruct (TrimFacts.trimEnd_split (Trim.trimStart text)) as (post & Hpost & Hwpost).
  pose proof (TrimFacts.trimEnd_last (Trim.trimStart text)) as Hlast.
  fold (Trim.trim text) in Hpost, Hlast.
  destruct (Trim.trim text) as [|c rest] eqn:Ht; [by left|right].
  destruct (last (c :: rest)) as [d|] eqn:Hd; [|done].
  exists c, rest, d, pre, post. repeat (split; [done|]).
  split; [|done]. by rewrite <- Hpost.
Qed.

(** Trimming a trimmed text changes nothing. *)
Lemma trim_idempotent (s : list N) : Trim.trim (Trim.trim s) = Trim.trim s.
Proof.
  unfold Trim.trim at 1.
  rewrite (TrimFacts.trimStart_id (Trim.trim s)) by apply TrimFacts.trim_head.
  unfold Trim.trim. apply TrimFacts.trimEnd_idem.
Qed.

(** A text of one ideographic space is blank; around [hi] an ideographic
    space and a no-break space are removed. *)
Example send_ideographic_space :
  handleSendMessage [12288%N] None 1 None = [] /\
  handleSendMessage [12288%N; 104%N; 105%N; 160%N] None 1 None =
    [SendMessage [104%N; 105%N] 1 None None; ClearReply; ScheduleScrollToBottom].
Proof. split; reflexivity. Qed.

(** ** Manual translation *)


(** ** More on the profile image upload *)

Module UploadFacts.
Import ProfileImageUpload ProfileView.

Lemma handleFileUpload_accepted (file : File) (rest : list File) :
  handleFileUpload (file :: rest) =
    if acceptedFile file then ([SetIsUploading true; ReadAsDataURL file], Some file)
    else if String.prefix "image/" (file_type file)
         then ([Toast "File too large" "Please select an image smaller than 1MB."], None)
         else ([Toast "Invalid file type" "Please select an image file."], None).
Proof.
  unfold handleFileUpload, acceptedFile.
  destruct (String.prefix "image/" (file_type file)); simpl; [|done].
  change (1 * 1024 * 1024) with 1048576.
  destruct (Z.ltb_spec 1048576 (file_size file)), (Z.leb_spec (file_size file) 1048576);
    (done || lia).
Qed.

End UploadFacts.

(** X17 (when the profile image is posted). One selection of files posts at
    most one profile image. It posts one exactly when the first selected
    file is an image of at most 1,048,576 bytes, the reader delivers its
    data URL and the image decodes; the body is then the compressed data URL
    with [useCustom] set. Files after the first are ignored. *)
Theorem upload_posts_iff (files : list ProfileImageUpload.File)
    (readResult : option string) (decode : ProfileImageUpload.DecodeOutcome) :
  ProfileImageUpload.mutations (ProfileImageUpload.uploadTrace files readResult decode) =
    match files, readResult, decode with
    | file :: _, Some _, ProfileImageUpload.DecodeOk compressed =>
        if ProfileView.acceptedFile file then [(compressed, true)] else []
    | _, _, _ => []
    end.
Proof.
  unfold ProfileImageUpload.uploadTrace. destruct files as [|file rest]; [done|].
  rewrite UploadFacts.handleFileUpload_accepted.
  destruct (ProfileView.acceptedFile file).
  - by destruct readResult, decode.
  - destruct (String.prefix "image/" (ProfileImageUpload.file_type file));
      by destruct readResult, decode.
Qed.

(** X18 (the uploading flag). A rejected or missing file leaves
    [isUploading] as it was. An accepted file sets it, and it is cleared
    again once the image has loaded or failed to load; while the reader has
    not delivered or the image is still pending, it stays set. *)
Theorem uploading_flag (files : list ProfileImageUpload.File)
    (readResult : option string) (decode : ProfileImageUpload.DecodeOutcome)
    (isUploading : bool) :
  ProfileView.isUploadingAfter
    (ProfileImageUpload.uploadTrace files readResult decode) isUploading =
    match files with
    | [] => isUploading
    | file :: _ =>
        if ProfileView.acceptedFile file then
          match readResult, decode with
          | Some _, ProfileImageUpload.DecodeOk _ => false
          | Some _, ProfileImageUpload.DecodeError => false
          | _, _ => true
          end
        else isUploading
    end.
Proof.
  unfold ProfileImageUpload.uploadTrace. destruct files as [|file rest]; [done|].
  rewrite UploadFacts.handleFileUpload_accepted.
  destruct (ProfileView.acceptedFile file).
  - by destruct readResult, decode.
  - destruct (String.prefix "image/" (ProfileImageUpload.file_type file));
      by destruct readResult, decode.
Qed.

(** X19 (the canvas never grows an image). For an image of positive width
    and height the canvas is at most 400 by 400 pixels and never larger than
    the image in either direction; an image that fits in 400 by 400 keeps
    its size, and a larger one gets 400 pixels on its longer side. *)
Theorem canvas_size_bounds (width height : Z) :
  0 < width -> 0 < height ->
  let '(w, h) := ProfileView.canvasSize width height in
  0 <= w <= 400 /\ 0 <= h <= 400 /\ w <= width /\ h <= height /\
  (width <= 400 -> height <= 400 -> (w, h) = (width, height)) /\
  (400 < width \/ 400 < height -> Z.max w h = 400).
Proof.
  intros Hw Hh. unfold ProfileView.canvasSize.
  destruct (Z.ltb_spec height width) as [Hlt|Hge].
  - destruct (Z.ltb_spec 400 width) as [Hbig|Hsmall].
    + assert (0 <= height * 400 / width) by (apply Z.div_pos; lia).
      assert (height * 400 / width <= height)
        by (apply Z.div_le_upper_bound; nia).
      assert (height * 400 / width <= 400)
        by (apply Z.div_le_upper_bound; nia).
      repeat split; try lia.
    + repeat split; lia.
  - destruct (Z.ltb_spec 400 height) as [Hbig|Hsmall].
    + assert (0 <= width * 400 / height) by (apply Z.div_pos; lia).
      assert (width * 400 / height <= width)
        by (apply Z.div_le_upper_bound; nia).
      assert (width * 400 / height <= 400)
        by (apply Z.div_le_upper_bound; nia).
      repeat split; try lia.
    + repeat split; lia.
Qed.

Lemma canvas_size_bounds_witness :
  let '(w, h) := ProfileView.canvasSize 1600 900 in
  0 <= w <= 400 /\ 0 <= h <= 400 /\ w <= 1600 /\ h <= 900 /\
  (1600 <= 400 -> 900 <= 400 -> (w, h) = (1600, 900)) /\
  (400 < 1600 \/ 400 < 900 -> Z.max w h = 400).
Proof. apply (canvas_size_bounds 1600 900); lia. Defined.


(** ** The language state *)

Module LanguageFacts.
Import Language.

Lemma truthy_Some (o : option string) (s : string) :
  truthy o = Some s -> o = Some s /\ s <> "" /\ truthy (Some s) = Some s.
Proof.
  unfold truthy. destruct o as [t|]; [|done].
  destruct (String.eqb_spec t ""); [done|]. intros [= ->].
  split; [done|]. split; [done|]. by destruct (String.eqb_spec s "").
Qed.

Lemma currentLanguage_setCurrentLanguage (newLang : string) (s : ChatState) :
  currentLanguage (setCurrentLanguage newLang s) = newLang.
Proof.
  unfold setCurrentLanguage. by destruct (String.eqb_spec newLang (currentLanguage s)).
Qed.

Lemma setCurrentLanguage_same (s : ChatState) :
  setCurrentLanguage (currentLanguage s) s = s.
Proof. unfold setCurrentLanguage. by rewrite String.eqb_refl. Qed.

Lemma setCurrentLanguage_changed (newLang : string) (s : ChatState) :
  newLang <> currentLanguage s ->
  setCurrentLanguage newLang s = changeLanguage newLang s.
Proof.
  intros Hne. unfold setCurrentLanguage.
  by destruct (String.eqb_spec newLang (currentLanguage s)).
Qed.

Lemma initEffect_in_sync pref server saved st :
  truthy pref = Some server ->
  truthy (selectedLanguage st) = Some saved ->
  currentLanguage (chat st) = saved ->
  initEffect pref st = st.
Proof.
  intros Hp Hs Hc. unfold initEffect. rewrite Hp, Hs.
  by rewrite (proj2 (String.eqb_eq _ _) Hc).
Qed.

Lemma initEffect_saved pref server saved st :
  truthy pref = Some server ->
  truthy (selectedLanguage st) = Some saved ->
  currentLanguage (chat st) <> saved ->
  initEffect pref st = mkStore (changeLanguage saved (chat st)) (selectedLanguage st).
Proof.
  intros Hp Hs Hc. unfold initEffect. rewrite Hp, Hs.
  destruct (String.eqb_spec (currentLanguage (chat st)) saved); [done|].
  by rewrite setCurrentLanguage_changed by congruence.
Qed.

Lemma initEffect_unsaved pref server st :
  truthy pref = Some server ->
  truthy (selectedLanguage st) = None ->
  initEffect pref st = mkStore (setCurrentLanguage server (chat st)) (Some server).
Proof. intros Hp Hs. unfold initEffect. by rewrite Hp, Hs. Qed.

End LanguageFacts.

(** X21 (the language is synchronised with local storage). When the signed-in
    user has a preferred language, the effect leaves the current language
    equal to the stored [selectedLanguage]: a language already stored wins
    and the server preference is used, and stored, only when nothing is
    stored. Running the effect again changes nothing. If the current
    language did not change the component state is untouched; if it changed
    the translation cache is empty and the messages are kept. *)
Theorem language_init_syncs (preferredLanguage : option string)
    (serverLanguage : string) (st : Language.Store) :
  Language.truthy preferredLanguage = Some serverLanguage ->
  let st' := Language.initEffect preferredLanguage st in
  Language.truthy (Language.selectedLanguage st') =
    Some (currentLanguage (Language.chat st')) /\
  currentLanguage (Language.chat st') =
    match Language.truthy (Language.selectedLanguage st) with
    | Some saved => saved
    | None => serverLanguage
    end /\
  Language.initEffect preferredLanguage st' = st' /\
  (currentLanguage (Language.chat st') = currentLanguage (Language.chat st) ->
   Language.chat st' = Language.chat st) /\
  (currentLanguage (Language.chat st') <> currentLanguage (Language.chat st) ->
   translatedMessages (Language.chat st') = ∅ /\
   roomMessages (Language.chat st') = roomMessages (Language.chat st)).
Proof.
  intros Hpref st'. subst st'.
  destruct (LanguageFacts.truthy_Some _ _ Hpref) as (_ & _ & Hserver).
  destruct (Language.truthy (Language.selectedLanguage st)) as [saved|] eqn:Hsel.
  - destruct (decide (currentLanguage (Language.chat st) = saved)) as [Hcur|Hcur].
    + rewrite !(LanguageFacts.initEffect_in_sync _ _ _ _ Hpref Hsel Hcur).
      rewrite Hsel, Hcur. by repeat split.
    + rewrite !(LanguageFacts.initEffect_saved _ _ _ _ Hpref Hsel Hcur). simpl.
      split; [done|]. split; [done|]. split.
      { by apply (LanguageFacts.initEffect_in_sync _ serverLanguage saved). }
      split; [intros Heq; by destruct Hcur|done].
  - rewrite !(LanguageFacts.initEffect_unsaved _ _ _ Hpref Hsel). simpl.
    rewrite LanguageFacts.currentLanguage_setCurrentLanguage.
    split; [done|]. split; [done|]. split.
    { apply (LanguageFacts.initEffect_in_sync _ serverLanguage serverLanguage);
        [done|done|]. apply LanguageFacts.currentLanguage_setCurrentLanguage. }
    split.
    + intros Heq. rewrite Heq. apply LanguageFacts.setCurrentLanguage_same.
    + intros Hne. by rewrite LanguageFacts.setCurrentLanguage_changed by congruence.
Qed.

Lemma language_init_syncs_witness :
  let st := Language.mount None in
  let st' := Language.initEffect (Some "fr") st in
  currentLanguage (Language.chat st) = "ja" /\
  Language.truthy (Language.selectedLanguage st') =
    Some (currentLanguage (Language.chat st')) /\
  currentLanguage (Language.chat st') =
    match Language.truthy (Language.selectedLanguage st) with
    | Some saved => saved
    | None => "fr"
    end /\
  Language.initEffect (Some "fr") st' = st' /\
  (currentLanguage (Language.chat st') = currentLanguage (Language.chat st) ->
   Language.chat st' = Language.chat st) /\
  (currentLanguage (Language.chat st') <> currentLanguage (Language.chat st) ->
   translatedMessages (Language.chat st') = ∅ /\
   roomMessages (Language.chat st') = roomMessages (Language.chat st)).
Proof.
  intros st. split; [reflexivity|].
  apply (language_init_syncs (Some "fr") "fr" st). reflexivity.
Defined.

(** X22 (the user's choice survives). After the user has picked a language
    in the selector, the stored language and the current language are the
    picked one and the translation cache is empty; a later run of the
    synchronisation effect, whatever the server preference, changes
    nothing. *)
Theorem selected_language_survives (newLang : string)
    (preferredLanguage : option string) (st : Language.Store) :
  newLang <> "" ->
  let st' := Language.selectLanguage newLang st in
  currentLanguage (Language.chat st') = newLang /\
  Language.selectedLanguage st' = Some newLang /\
  translatedMessages (Language.chat st') = ∅ /\
  Language.initEffect preferredLanguage st' = st'.
Proof.
  intros Hne st'. subst st'. do 3 (split; [done|]).
  unfold Language.initEffect. destruct (Language.truthy preferredLanguage); [|done].
  simpl. destruct (String.eqb_spec newLang ""); [done|].
  by rewrite String.eqb_refl.
Qed.

Lemma selected_language_survives_witness :
  let st := Language.mount (Some "ja") in
  let st' := Language.selectLanguage "de" st in
  currentLanguage (Language.chat st') = "de" /\
  Language.selectedLanguage st' = Some "de" /\
  translatedMessages (Language.chat st') = ∅ /\
  Language.initEffect (Some "fr") st' = st'.
Proof.
  intros st. apply (selected_language_survives "de" (Some "fr") st). discriminate.
Defined.

(** ** Deletion and notification *)

(** X23 (a deleted message does not notify). A run of the merge effect
    never fires a mention notification for an id of its tombstone set, even
    when the message is new to the view and at-mentions the user. *)
Theorem deleted_never_notifies (getDisplayName : User -> string)
    (newRegExp : string -> option (string -> bool))
    (inp : MergeInputs) (s : ChatState) (i : Z) :
  i ∈ deletedMessageIds inp -> i ∉ (mergeEffect getDisplayName newRegExp inp s).2.
Proof.
  intros Hdel Hfired. apply fired_spec in Hfired as (_ & m & Hin & Hid & _).
  by apply (tombstone_supremacy_aux (deletedMessageIds inp) m i
              (dbMessagesOf (initialMessages inp))
              (wsMessagesOf (roomId inp) (allMessages inp))).
Qed.

Lemma deleted_never_notifies_witness :
  let alice := mkUser "alice-self-id" "Alice" "Liddell" "alice@example.com" in
  let msg := mkMessage (Some 7) 1 "bob" "Bob" (Some "hi @Alice") (Some 100) in
  let inp := mkMergeInputs None [msg] 1 {[7]} (Some alice) in
  7 ∉ (mergeEffect user_firstName Regex.literalRegExp inp (initialState "ja")).2.
Proof.
  intros alice msg inp.
  assert (Hdel : 7 ∈ ({[7]} : gset Z)) by (by apply elem_of_singleton).
  exact (deleted_never_notifies user_firstName Regex.literalRegExp inp
           (initialState "ja") 7 Hdel).
Defined.

(** ** Participant profiles *)

Lemma find_first_match {A} (f : A -> bool) (pre post : list A) (x : A) :
  (forall y, In y pre -> f y = false) -> f x = true ->
  List.find f (pre ++ x :: post) = Some x.
Proof.
  intros Hpre Hx. induction pre as [|y pre IH]; simpl.
  - by rewrite Hx.
  - rewrite (Hpre y) by (by left). apply IH. intros z Hz. apply Hpre. by right.
Qed.

(** X24 (whose profile is shown). [getParticipantProfile] answers with the
    requested id whenever it answers. It has no answer exactly when no
    message of the view is from that sender and the sender is not the
    signed-in user. When the view holds messages of the sender, the profile
    and its image are read off the first of them, also for the signed-in
    user. *)
Theorem participant_profile (senderFields : Message -> SenderFields)
    (userImageFields : User -> UserImageFields)
    (senderId : string) (msgs : list Message) (user : option User) :
  (forall p, getParticipantProfile senderFields userImageFields senderId msgs user
               = Some p -> pp_id p = senderId) /\
  (getParticipantProfile senderFields userImageFields senderId msgs user = None <->
   (forall m, m ∈ msgs -> msg_senderId m <> senderId) /\
   (forall u, user = Some u -> user_id u <> senderId)) /\
  (forall pre m post,
     msgs = pre ++ m :: post -> msg_senderId m = senderId ->
     (forall x, x ∈ pre -> msg_senderId x <> senderId) ->
     getParticipantProfile senderFields userImageFields senderId msgs user =
       Some (profileOfMessage senderFields senderId m) /\
     getUserProfileImage senderFields userImageFields senderId msgs user =
       pp_profileImageUrl (profileOfMessage senderFields senderId m)).
Proof.
  unfold getUserProfileImage, getParticipantProfile. split; [|split].
  - intros p. destruct (List.find _ msgs) as [m|]; [by intros [= <-]|].
    destruct user as [u|]; [|done].
    destruct (String.eqb_spec senderId (user_id u)); [|done]. by intros [= <-].
  - destruct (List.find _ msgs) as [m|] eqn:Hf.
    + split; [done|]. intros [Hno _]. apply find_some in Hf as [Hin Heq].
      apply String.eqb_eq in Heq. apply list_elem_of_In in Hin.
      by destruct (Hno m Hin).
    + assert (Hno : forall m, m ∈ msgs -> msg_senderId m <> senderId).
      { intros m Hin Heq. apply list_elem_of_In in Hin.
        pose proof (find_none _ _ Hf m Hin) as Hn. simpl in Hn.
        apply String.eqb_neq in Hn. done. }
      destruct user as [u|].
      * destruct (String.eqb_spec senderId (user_id u)) as [Heq|Hne].
        -- split; [done|]. intros [_ Hu]. by destruct (Hu u).
        -- split; [|done]. intros _. split; [done|]. intros u' [= <-]. congruence.
      * split; [|done]. intros _. split; [done|]. by intros u'.
  - intros pre m post -> Hm Hpre.
    rewrite (find_first_match _ pre post m); [done| |by apply String.eqb_eq].
    intros y Hy. apply String.eqb_neq. apply Hpre. by apply list_elem_of_In.
Qed.
